(** * carcost: the cost-projection engine

    A shallow embedding of the interpolator and of the projection engine of
    the two scripts of the repository,

      - [src/car-cost.ts]      (script [car_cost_ts] below), and
      - [src/unnamed/part_001] (script [part_001] below),

    which share [lerp], [interpolatePoints] and [calculateLoanPayments]
    verbatim and differ in one line of [calculateCostOfOwnership].

    Modelling decisions.

    - JavaScript numbers that hold money and rates are kept abstract: the
      engine is written over a class [Arith] that supplies the literals,
      [+ - * /], [Math.pow] and the value [NaN].  Everything that only
      depends on the shape of the computation is proved for every instance.
    - Two instances are given.  [binary64] is IEEE 754 double precision, the
      numbers of JavaScript, over the primitive floats and their
      specification [SpecFloat]; [Math.pow], which the language leaves to
      the implementation, is a parameter of it.  [xnum] is exact arithmetic:
      rationals extended with the two infinities and NaN, with the IEEE
      rules for division by zero and for the undefined forms, and with no
      rounding, overflow, underflow or sign of zero.  A statement about
      [xnum] is a statement about the exact values, which the scripts
      approximate; it is used for the worked examples and where the outcome
      is NaN by the rules for the undefined forms.
    - What holds of zeros and of signs in both instances is collected in the
      class [Ieee754]: laws of IEEE 754 that involve no rounding.  The
      statements on a zero or negative principal are proved from these laws,
      hence for [binary64] as well as for [xnum].
    - Year counts ([loanYears], [expectedLife], the year of a control point,
      loop counters and array lengths) are integers, [Z]; they may be zero or
      negative.  Integer-to-number conversions are [of_Z].
    - [Array(length)] raises [RangeError] unless [0 <= length < 2^32];
      results are completion records, [Normal] or [Throw].  Arrays are
      lists.  An array that the code grows with [push] or builds with
      [Array.from] is a list of any length: the limits of the engine on
      memory and on the size of such an array are not modelled, and for
      such an array the statements describe the values that the code
      computes.
    - [points.sort(...)] sorts the array of the caller in place, so
      [interpolatePoints] returns the contents of that array after the call
      together with its completion. *)

From Stdlib Require Import ZArith QArith Qreduction Qpower Bool List Lia Lqa.
From Stdlib Require Import Sorting.Permutation Sorting.Sorted.
From Stdlib Require Floats.
Import ListNotations.

Local Open Scope Z_scope.

(** ** Completion records *)

Inductive exn : Type := RangeError.

Inductive completion (A : Type) : Type :=
| Normal (a : A)
| Throw (e : exn).

Arguments Normal {A} a.
Arguments Throw {A} e.

Definition bind {A B : Type} (c : completion A) (k : A -> completion B)
  : completion B :=
  match c with
  | Normal a => k a
  | Throw e => Throw e
  end.

Notation "x <- c ;; k" := (bind c (fun x => k))
  (at level 61, c at next level, right associativity).

(** ** JavaScript numbers, abstractly *)

Class Arith (number : Type) : Type := {
  lit : Q -> number;                  (* a numeric literal *)
  nan : number;                       (* what arithmetic on [undefined] gives *)
  add : number -> number -> number;
  sub : number -> number -> number;
  mul : number -> number -> number;
  div : number -> number -> number;
  pow : number -> Z -> number         (* [Math.pow] at an integer exponent *)
}.

Definition of_Z {number : Type} `{Arith number} (z : Z) : number :=
  lit (inject_Z z).

Declare Scope js_scope.
Delimit Scope js_scope with js.
Infix "+" := add : js_scope.
Infix "-" := sub : js_scope.
Infix "*" := mul : js_scope.
Infix "/" := div : js_scope.

(** The two copies of the script. *)
Inductive script : Type := car_cost_ts | part_001.

Section Engine.

Context {number : Type} `{Arith number}.

(** [type GraphPoint = [number, number]; // [year, cost]] *)
Definition GraphPoint : Type := (Z * number)%type.

(** [type Settings]; the fields [name] and [modelId] are not read by the
    engine and are left out. *)
Record Settings : Type := mkSettings {
  cost : option number;
  downPayment : option number;
  loanRate : option number;
  loanYears : option Z;
  expectedLife : option Z;
  insurancePoints : option (list GraphPoint);
  yearlyPermitCost : option number;
  maintenancePoints : option (list GraphPoint)
}.

(** The value returned by [calculateCostOfOwnership]. *)
Record Breakdown : Type := mkBreakdown {
  yearlyBreakdown : list number;
  total : number
}.

(** [function lerp(start, end, perc)] *)
Definition lerp (start end_ perc : number) : number :=
  let diff := (start - end_)%js in
  (start - (diff * perc))%js.

(** [points.sort((a, b) => a[0] - b[0])]: the sort is stable, and on
    integer years the comparator is consistent, so the result is the
    stable insertion of every point among the later ones. *)
Fixpoint insert (p : GraphPoint) (l : list GraphPoint) : list GraphPoint :=
  match l with
  | [] => [p]
  | q :: l' => if fst p - fst q <=? 0 then p :: l else q :: insert p l'
  end.

Definition sort (points : list GraphPoint) : list GraphPoint :=
  fold_right insert [] points.

(** [Array(length).fill(v)]: [Array(length)] raises [RangeError] unless
    [0 <= length < 2^32]. *)
Definition Array_fill (length : Z) (v : number) : completion (list number) :=
  if (length <? 0) || (4294967296 <=? length) then Throw RangeError
  else Normal (repeat v (Z.to_nat length)).

(** The values [0, 1, ..., length - 1] of a counting [for] loop, and of the
    indices of [Array.from({ length })]; none when [length <= 0]. *)
Definition upto (length : Z) : list Z :=
  map Z.of_nat (seq 0 (Z.to_nat length)).

(** The inner loop of [interpolatePoints]: the first [i] with
    [points[i][0] <= year && points[i+1][0] > year]. *)
Fixpoint find_bracket (points : list GraphPoint) (year : Z)
  : option (GraphPoint * GraphPoint) :=
  match points with
  | p :: (q :: _) as rest =>
      if (fst p <=? year) && (fst q >? year) then Some (p, q)
      else find_bracket rest year
  | _ => None
  end.

(** [left] and [right] after the inner loop; they start as [points[0]] and
    [points[points.length - 1]].  [d] stands for a point of the array and
    is only read when [points] is empty, which the caller excludes. *)
Definition surrounding (d : GraphPoint) (points : list GraphPoint) (year : Z)
  : GraphPoint * GraphPoint :=
  match find_bracket points year with
  | Some b => b
  | None => (hd d points, last points d)
  end.

(** The value pushed for [year] from the pair [left], [right]. *)
Definition segment (left right : GraphPoint) (year : Z) : number :=
  if fst left =? fst right then snd left
  else
    let percentage := (of_Z (year - fst left) / of_Z (fst right - fst left))%js in
    lerp (snd left) (snd right) percentage.

(** One iteration of the outer loop of [interpolatePoints]. *)
Definition interpolate_year (d : GraphPoint) (points : list GraphPoint)
  (year : Z) : number :=
  let bracket := surrounding d points year in
  segment (fst bracket) (snd bracket) year.

(** [function interpolatePoints(points, length)].  The first component is
    the array [points] of the caller as the call leaves it. *)
Definition interpolatePoints (points : list GraphPoint) (length : Z)
  : list GraphPoint * completion (list number) :=
  match points with
  | [] => (points, Array_fill length (of_Z 0))
  | [p] => (points, Array_fill length (snd p))
  | p :: _ =>
      let sorted := sort points in
      (sorted, Normal (map (interpolate_year p sorted) (upto length)))
  end.

(** [function calculateLoanPayments(principal, rate, years)] *)
Definition calculateLoanPayments (principal rate : number) (years : Z)
  : number :=
  let monthlyRate := (rate / of_Z 12)%js in
  let numPayments := years * 12 in
  let monthlyPayment :=
    (principal * monthlyRate * pow (of_Z 1 + monthlyRate) numPayments
     / (pow (of_Z 1 + monthlyRate) numPayments - of_Z 1))%js in
  (monthlyPayment * of_Z 12 * of_Z years)%js.

(** The destructuring defaults of [calculateCostOfOwnership], in source
    order: [expectedLife] is bound before the default of
    [insurancePoints] reads it. *)
Definition orElse {A : Type} (o : option A) (d : A) : A :=
  match o with Some a => a | None => d end.

Record Resolved : Type := mkResolved {
  r_cost : number;
  r_downPayment : number;
  r_loanRate : number;
  r_loanYears : Z;
  r_expectedLife : Z;
  r_insurancePoints : list GraphPoint;
  r_yearlyPermitCost : number;
  r_maintenancePoints : list GraphPoint
}.

Definition defaults (settings : Settings) : Resolved :=
  let cost := orElse (cost settings) (of_Z 0) in
  let downPayment := orElse (downPayment settings) (of_Z 0) in
  let loanRate := orElse (loanRate settings) (lit (3 # 100)) in
  let loanYears := orElse (loanYears settings) 4 in
  let expectedLife := orElse (expectedLife settings) 20 in
  let insurancePoints :=
    orElse (insurancePoints settings)
      [(0, of_Z 14000); (expectedLife - 1, of_Z 6500)] in
  let yearlyPermitCost := orElse (yearlyPermitCost settings) (of_Z 2643) in
  let maintenancePoints :=
    orElse (maintenancePoints settings)
      [(0, of_Z 1000); (5, of_Z 2000); (10, of_Z 3500); (15, of_Z 5000)] in
  mkResolved cost downPayment loanRate loanYears expectedLife
    insurancePoints yearlyPermitCost maintenancePoints.

(** [const principal = cost - downPayment] *)
Definition principal (r : Resolved) : number :=
  (r_cost r - r_downPayment r)%js.

(** [const yearlyLoanPayment = totalLoanPayment / loanYears] *)
Definition yearlyLoanPayment (r : Resolved) : number :=
  let totalLoanPayment :=
    calculateLoanPayments (principal r) (r_loanRate r) (r_loanYears r) in
  (totalLoanPayment / of_Z (r_loanYears r))%js.

(** [insuranceCosts[i]]: reading past the end gives [undefined]. *)
Definition at_index (a : list number) (i : Z) : number :=
  nth (Z.to_nat i) a nan.

(** The callback of [Array.from({ length: expectedLife }).map(...)]. *)
Definition yearCost (r : Resolved) (insuranceCosts maintenanceCosts : list number)
  (i : Z) : number :=
  let yearCost :=
    (at_index insuranceCosts i + r_yearlyPermitCost r
     + at_index maintenanceCosts i)%js in
  if i <? r_loanYears r then (yearCost + yearlyLoanPayment r)%js
  else yearCost.

(** [yearlyPayments.reduce((acc, v) => acc + v, 0)] *)
Definition sum (l : list number) : number :=
  fold_left add l (of_Z 0).

(** [function calculateCostOfOwnership(settings)] of the script [v].  The
    two calls also sort the arrays of [settings] in place; nothing reads
    them afterwards, and the completion alone is returned here. *)
Definition calculateCostOfOwnership (v : script) (settings : Settings)
  : completion Breakdown :=
  let r := defaults settings in
  insuranceCosts <- snd (interpolatePoints (r_insurancePoints r) (r_expectedLife r)) ;;
  maintenanceCosts <- snd (interpolatePoints (r_maintenancePoints r) (r_expectedLife r)) ;;
  let yearlyPayments :=
    map (yearCost r insuranceCosts maintenanceCosts) (upto (r_expectedLife r)) in
  let total :=
    match v with
    | car_cost_ts => sum yearlyPayments
    | part_001 => (sum yearlyPayments + r_downPayment r)%js
    end in
  Normal (mkBreakdown yearlyPayments total).

End Engine.

Arguments Settings number : clear implicits.
Arguments Breakdown number : clear implicits.
Arguments Resolved number : clear implicits.
Arguments GraphPoint number : clear implicits.



(** ** Zeros and signs *)

(** What the statements on a zero or negative principal use of the
    arithmetic.  [is_zero x]: [x] is [+0] or [-0].  [negative x] and
    [positive x]: [x] is finite, not a zero, and of that sign.  [same x y]:
    [x] and [y] are the same number, or both a zero.  The laws are those of
    IEEE 754 for a zero operand and for the sign of a product and of a
    quotient; none of them speaks of the rounded magnitude. *)
Class Ieee754 (number : Type) `{Arith number} : Type := {
  is_zero : number -> Prop;
  negative : number -> Prop;
  positive : number -> Prop;
  same : number -> number -> Prop;
  zero_minus_zero : is_zero (of_Z 0 - of_Z 0)%js;
  twelve_positive : positive (of_Z 12);
  zero_mul : forall z x,
    is_zero z -> negative x \/ positive x -> is_zero (z * x)%js;
  zero_div : forall z x,
    is_zero z -> negative x \/ positive x -> is_zero (z / x)%js;
  add_zero : forall x z, is_zero z -> same (x + z)%js x;
  same_refl : forall x, same x x;
  mul_regular : forall x y,
    negative (x * y)%js \/ positive (x * y)%js ->
    (negative x \/ positive x) /\ (negative y \/ positive y);
  div_regular : forall x y,
    negative (x / y)%js \/ positive (x / y)%js ->
    (negative x \/ positive x) /\ (negative y \/ positive y);
  mul_negative : forall x y,
    negative x -> positive y ->
    negative (x * y)%js \/ positive (x * y)%js -> negative (x * y)%js;
  div_negative : forall x y,
    negative x -> positive y ->
    negative (x / y)%js \/ positive (x / y)%js -> negative (x / y)%js
}.


(** ** Exact arithmetic with infinities and NaN *)

(** The numbers of this instance are the exact values: a rational is never
    rounded and never overflows or underflows, and there is one zero.  What
    is proved of it is proved of the exact values, which the scripts
    approximate; an outcome that is NaN by the rules for the undefined
    forms, [0 / 0] and [0 * Infinity], is the outcome of the scripts. *)

Inductive xnum : Type :=
| Fin (q : Q)
| PInf
| NInf
| NaN.

Definition sgn (q : Q) : Z := Z.sgn (Qnum q).

(** An infinity of the given sign; the undefined form [0 * inf] is NaN. *)
Definition inf_of_sign (s : Z) : xnum :=
  match s with
  | Z0 => NaN
  | Zpos _ => PInf
  | Zneg _ => NInf
  end.

Definition xneg (a : xnum) : xnum :=
  match a with
  | Fin q => Fin (Qred (- q))
  | PInf => NInf
  | NInf => PInf
  | NaN => NaN
  end.

Definition xadd (a b : xnum) : xnum :=
  match a, b with
  | NaN, _ | _, NaN => NaN
  | Fin p, Fin q => Fin (Qred (p + q))
  | PInf, NInf | NInf, PInf => NaN
  | PInf, _ | _, PInf => PInf
  | NInf, _ | _, NInf => NInf
  end.

Definition xsub (a b : xnum) : xnum :=
  match a, b with
  | Fin p, Fin q => Fin (Qred (p - q))
  | _, _ => xadd a (xneg b)
  end.

Definition xmul (a b : xnum) : xnum :=
  match a, b with
  | NaN, _ | _, NaN => NaN
  | Fin p, Fin q => Fin (Qred (p * q))
  | Fin p, PInf | PInf, Fin p => inf_of_sign (sgn p)
  | Fin p, NInf | NInf, Fin p => inf_of_sign (- sgn p)
  | PInf, PInf | NInf, NInf => PInf
  | PInf, NInf | NInf, PInf => NInf
  end.

Definition xdiv (a b : xnum) : xnum :=
  match a, b with
  | NaN, _ | _, NaN => NaN
  | Fin p, Fin q =>
      if Qnum q =? 0 then inf_of_sign (sgn p) else Fin (Qred (p / q))
  | Fin _, _ => Fin 0
  | PInf, Fin q => if sgn q <? 0 then NInf else PInf
  | NInf, Fin q => if sgn q <? 0 then PInf else NInf
  | _, _ => NaN
  end.

Definition xpow (base : xnum) (n : Z) : xnum :=
  if n =? 0 then Fin 1
  else
    match base with
    | NaN => NaN
    | PInf => if 0 <? n then PInf else Fin 0
    | NInf => if 0 <? n then (if Z.odd n then NInf else PInf) else Fin 0
    | Fin q =>
        if (Qnum q =? 0) && (n <? 0) then PInf else Fin (Qred (q ^ n))
    end.

#[export] Instance xnum_arith : Arith xnum := {
  lit q := Fin (Qred q);
  nan := NaN;
  add := xadd;
  sub := xsub;
  mul := xmul;
  div := xdiv;
  pow := xpow
}.

(** [a == b] on numbers: the same rational, the same infinity, or both NaN
    (a relation of the model, not JavaScript's [===]). *)
Definition xeq (a b : xnum) : Prop :=
  match a, b with
  | Fin p, Fin q => (p == q)%Q
  | PInf, PInf | NInf, NInf | NaN, NaN => True
  | _, _ => False
  end.

(** Zeros and signs of the exact numbers. *)
Definition x_is_zero (a : xnum) : Prop :=
  match a with
  | Fin q => (q == 0)%Q
  | _ => False
  end.

Definition x_negative (a : xnum) : Prop :=
  match a with
  | Fin q => (q < 0)%Q
  | _ => False
  end.

Definition x_positive (a : xnum) : Prop :=
  match a with
  | Fin q => (0 < q)%Q
  | _ => False
  end.

(** ** IEEE 754 binary64 *)

(** The double nearest to an integer, and a literal [n / d] as the correctly
    rounded quotient of two integers (exact for the integers, and the
    nearest double for the decimal literals of the scripts, whose numerator
    and denominator are below 2^53). *)
Definition float_of_Z (z : Z) : PrimFloat.float :=
  FloatOps.SF2Prim
    (SpecFloat.binary_normalize FloatOps.prec FloatOps.emax z 0 false).

Definition float_lit (q : Q) : PrimFloat.float :=
  PrimFloat.div (float_of_Z (Qnum q)) (float_of_Z (Zpos (Qden q))).

(** JavaScript's numbers; [Math_pow] is the [Math.pow] of the engine. *)
Definition binary64 (Math_pow : PrimFloat.float -> Z -> PrimFloat.float)
  : Arith PrimFloat.float := {|
  lit := float_lit;
  nan := PrimFloat.nan;
  add := PrimFloat.add;
  sub := PrimFloat.sub;
  mul := PrimFloat.mul;
  div := PrimFloat.div;
  pow := Math_pow
|}.

Definition f_is_zero (x : PrimFloat.float) : Prop :=
  exists s, FloatOps.Prim2SF x = SpecFloat.S754_zero s.

(** Finite and not a zero, with sign bit [s]. *)
Definition f_signed (s : bool) (x : PrimFloat.float) : Prop :=
  exists m e, FloatOps.Prim2SF x = SpecFloat.S754_finite s m e.

Definition f_same (x y : PrimFloat.float) : Prop :=
  x = y \/ (f_is_zero x /\ f_is_zero y).

(** ** Inputs used below *)

(** [[[0, 100], [10, 200]]] *)
Definition two_point_curve : list (GraphPoint xnum) :=
  [(0, Fin 100); (10, Fin 200)].

(** A curve that is flat on its final segment. *)
Definition plateau_curve : list (GraphPoint xnum) :=
  [(0, Fin 0); (1, Fin 10); (2, Fin 10)].

(** A curve that is flat on its first segment and starts at year 2. *)
Definition late_curve : list (GraphPoint xnum) :=
  [(2, Fin 0); (3, Fin 0); (4, Fin 10)].

(** A curve given out of order. *)
Definition unsorted_curve : list (GraphPoint xnum) :=
  [(5, Fin 1); (0, Fin 2)].

(** [{ cost: 50000, downPayment: 50000, expectedLife: 2 }]: paid in cash. *)
Definition cash_purchase : Settings xnum :=
  mkSettings (Some (Fin 50000)) (Some (Fin 50000)) None None (Some 2)
    None None None.

(** [{ cost: 12000, loanRate: 0, expectedLife: 6 }]: an interest-free loan. *)
Definition interest_free : Settings xnum :=
  mkSettings (Some (Fin 12000)) None (Some (Fin 0)) None (Some 6)
    None None None.


(** [{ cost: 30000, downPayment: 40000, loanRate: 0.12, loanYears: 1,
       expectedLife: 2 }]: the down payment exceeds the cost. *)
Definition overpaid : Settings xnum :=
  mkSettings (Some (Fin 30000)) (Some (Fin 40000)) (Some (Fin (12 # 100)))
    (Some 1) (Some 2) None None None.

(** [{ loanYears: 0, expectedLife: 2 }]: neither cost nor down payment. *)
Definition no_loan_term : Settings xnum :=
  mkSettings None None None (Some 0) (Some 2) None None None.

(** [{ expectedLife: 3 }] *)
Definition only_life : Settings xnum :=
  mkSettings None None None None (Some 3) None None None.

(** [{}]: every field unset. *)
Definition all_unset : Settings xnum :=
  mkSettings None None None None None None None None.

(** ** Vocabulary of the statements *)

(** Ascending by year, as [sort] leaves a curve. *)
Definition by_year {number : Type} (a b : GraphPoint number) : Prop :=
  fst a <= fst b.

Definition sorted {number : Type} (points : list (GraphPoint number)) : Prop :=
  StronglySorted by_year points.

(** [left] and [right] are neighbours in [points], in this order. *)
Definition consecutive {number : Type} (left right : GraphPoint number)
  (points : list (GraphPoint number)) : Prop :=
  exists before after, points = before ++ left :: right :: after.

(** The pair the specification names for a year past the last control
    point: the last two points of the sorted curve. *)
Fixpoint spec_last_two {number : Type} (points : list (GraphPoint number))
  : option (GraphPoint number * GraphPoint number) :=
  match points with
  | [p; q] => Some (p, q)
  | _ :: rest => spec_last_two rest
  | [] => None
  end.

(** The pair the specification names for a year before the first control
    point: the first two points of the sorted curve. *)
Definition spec_first_two {number : Type} (points : list (GraphPoint number))
  : option (GraphPoint number * GraphPoint number) :=
  match points with
  | p :: q :: _ => Some (p, q)
  | _ => None
  end.

(** ** Further vocabulary and the report of [commandSimulate] *)

(** The points of one year. *)
Definition year_is {number : Type} (year : Z) (p : GraphPoint number) : bool :=
  fst p =? year.





(** [const avgYear = total / yearlyBreakdown.length] of [commandSimulate]. *)
Definition avgYear {number : Type} `{Arith number} (b : Breakdown number)
  : number :=
  (total b / of_Z (Z.of_nat (length (yearlyBreakdown b))))%js.

(** ** Further inputs *)

(** Two points of the same year. *)
Definition same_year_curve : list (GraphPoint xnum) :=
  [(3, Fin 7); (3, Fin 9)].

(** [{ cost: 30000, downPayment: 5000, expectedLife: 0 }] *)
Definition zero_life : Settings xnum :=
  mkSettings (Some (Fin 30000)) (Some (Fin 5000)) None None (Some 0)
    None None None.




(** ** Lists, counters and sorting *)

Section EngineFacts.

Context {number : Type} `{Arith number}.

Implicit Types (points : list (GraphPoint number)) (p q : GraphPoint number).

Lemma upto_length (n : Z) : length (upto n) = Z.to_nat n.
Proof. unfold upto. now rewrite length_map, length_seq. Qed.

Lemma nth_upto (n i d : Z) :
  0 <= i < n -> nth (Z.to_nat i) (upto n) d = i.
Proof.
  intros Hi. unfold upto.
  rewrite nth_indep with (d' := Z.of_nat 0) by (rewrite length_map, length_seq; lia).
  rewrite map_nth, seq_nth by lia. lia.
Qed.

Lemma at_index_map_upto (f : Z -> number) (n i : Z) :
  0 <= i < n -> at_index (map f (upto n)) i = f i.
Proof.
  intros Hi. unfold at_index.
  rewrite nth_indep with (d' := f 0) by (rewrite length_map, upto_length; lia).
  rewrite map_nth. now rewrite nth_upto.
Qed.

Lemma at_index_repeat (c : number) (n i : Z) :
  0 <= i < n -> at_index (repeat c (Z.to_nat n)) i = c.
Proof.
  intros Hi. unfold at_index. apply nth_repeat_lt. lia.
Qed.

Lemma insert_perm p points : Permutation (p :: points) (insert p points).
Proof.
  induction points as [|q l IH]; simpl.
  - apply Permutation_refl.
  - destruct (fst p - fst q <=? 0).
    + apply Permutation_refl.
    + eapply Permutation_trans; [apply perm_swap|].
      now apply perm_skip.
Qed.

Lemma sort_perm points : Permutation points (sort points).
Proof.
  induction points as [|p l IH]; simpl.
  - constructor.
  - eapply Permutation_trans; [|apply insert_perm]. now apply perm_skip.
Qed.

Lemma sort_length points : length (sort points) = length points.
Proof. symmetry. apply Permutation_length, sort_perm. Qed.

Lemma insert_sorted p points : sorted points -> sorted (insert p points).
Proof.
  unfold sorted. induction 1 as [|q l Hl IH Hq]; simpl.
  - repeat constructor.
  - destruct (fst p - fst q <=? 0) eqn:E.
    + apply Z.leb_le in E. constructor.
      * now constructor.
      * constructor; [unfold by_year; lia|].
        eapply Forall_impl; [|exact Hq]. unfold by_year. intros; lia.
    + apply Z.leb_gt in E. constructor; [exact IH|].
      eapply Permutation_Forall; [apply insert_perm|].
      constructor; [unfold by_year; lia|exact Hq].
Qed.

Lemma sort_sorted points : sorted (sort points).
Proof.
  induction points as [|p l IH]; simpl.
  - constructor.
  - now apply insert_sorted.
Qed.

Lemma sort_of_sorted points : sorted points -> sort points = points.
Proof.
  unfold sorted. induction 1 as [|p l Hl IH Hp]; simpl; [reflexivity|].
  rewrite IH. destruct l as [|q l']; simpl; [reflexivity|].
  inversion Hp as [|? ? Hpq _]; subst. unfold by_year in Hpq.
  destruct (fst p - fst q <=? 0) eqn:E; [reflexivity|].
  apply Z.leb_gt in E. lia.
Qed.

(** ** The inner loop *)

Lemma find_bracket_cons p q points (year : Z) :
  find_bracket (p :: q :: points) year =
  if (fst p <=? year) && (fst q >? year) then Some (p, q)
  else find_bracket (q :: points) year.
Proof. reflexivity. Qed.

Lemma find_bracket_none_beyond points (year : Z) :
  (forall p, In p points -> fst p <= year) ->
  find_bracket points year = None.
Proof.
  induction points as [|p [|q l] IH]; intros Hall; try reflexivity.
  cbn [find_bracket].
  assert (Hq : fst q <= year) by (apply Hall; simpl; auto).
  replace (fst q >? year) with false by (symmetry; rewrite Z.gtb_ltb; apply Z.ltb_ge; lia).
  rewrite andb_false_r. apply IH. intros p' Hin. apply Hall. now right.
Qed.

Lemma find_bracket_none_below points (year : Z) :
  (forall p, In p points -> year < fst p) ->
  find_bracket points year = None.
Proof.
  induction points as [|p [|q l] IH]; intros Hall; try reflexivity.
  cbn [find_bracket].
  assert (Hp : year < fst p) by (apply Hall; simpl; auto).
  replace (fst p <=? year) with false by (symmetry; apply Z.leb_gt; lia).
  cbn [andb]. apply IH. intros p' Hin. apply Hall. now right.
Qed.

Lemma find_bracket_consecutive points left right (year : Z) :
  sorted points -> consecutive left right points ->
  fst left <= year < fst right ->
  find_bracket points year = Some (left, right).
Proof.
  intros Hs (before & after & ->) Hy. revert Hs.
  induction before as [|x before IH]; intros Hs.
  - cbn [app find_bracket].
    replace (fst left <=? year) with true by (symmetry; apply Z.leb_le; lia).
    replace (fst right >? year) with true
      by (symmetry; rewrite Z.gtb_ltb; apply Z.ltb_lt; lia).
    reflexivity.
  - inversion Hs as [|? ? Hs' Hx]; subst.
    assert (Hnext : exists n rest, before ++ left :: right :: after = n :: rest
                                   /\ fst n <= year).
    { destruct before as [|n before'].
      - exists left, (right :: after). split; [reflexivity|lia].
      - exists n, (before' ++ left :: right :: after). split; [reflexivity|].
        inversion Hs' as [|? ? _ Hn]; subst.
        rewrite Forall_forall in Hn.
        assert (by_year n left) by (apply Hn, in_elt).
        unfold by_year in *. lia. }
    destruct Hnext as (n & rest & Heq & Hn).
    change ((x :: before) ++ left :: right :: after)
      with (x :: (before ++ left :: right :: after)).
    rewrite Heq, find_bracket_cons.
    replace (fst n >? year) with false
      by (symmetry; rewrite Z.gtb_ltb; apply Z.ltb_ge; lia).
    rewrite andb_false_r. rewrite <- Heq. now apply IH.
Qed.

End EngineFacts.

(** ** The interpolator *)

Section Interpolator.

Context {number : Type} `{Arith number}.

Implicit Types (points : list (GraphPoint number)) (p q : GraphPoint number).

Lemma Array_fill_normal (n : Z) (c : number) :
  0 <= n < 4294967296 -> Array_fill n c = Normal (repeat c (Z.to_nat n)).
Proof.
  intros Hn. unfold Array_fill.
  replace (n <? 0) with false by (symmetry; apply Z.ltb_ge; lia).
  replace (4294967296 <=? n) with false by (symmetry; apply Z.leb_gt; lia).
  reflexivity.
Qed.

Lemma Array_fill_throws (n : Z) (c : number) :
  n < 0 \/ 4294967296 <= n -> Array_fill n c = Throw RangeError.
Proof.
  intros Hn. unfold Array_fill.
  replace ((n <? 0) || (4294967296 <=? n)) with true; [reflexivity|].
  symmetry. apply orb_true_iff.
  destruct Hn; [left; apply Z.ltb_lt|right; apply Z.leb_le]; lia.
Qed.


Lemma interpolatePoints_many p q points (len : Z) :
  interpolatePoints (p :: q :: points) len =
  (sort (p :: q :: points),
   Normal (map (interpolate_year p (sort (p :: q :: points))) (upto len))).
Proof. reflexivity. Qed.

(** The call returns normally on a length from 0 up to but not including
    2^32, and on any length when the curve has two points or more; the
    result has one entry per year. *)
Lemma interpolatePoints_normal points (len : Z) :
  0 <= len < 4294967296 \/ (2 <= length points)%nat ->
  exists res, snd (interpolatePoints points len) = Normal res
              /\ length res = Z.to_nat len.
Proof.
  intros Hlen. destruct points as [|p [|q l]].
  - destruct Hlen as [Hlen|Hlen]; [|simpl in Hlen; lia].
    cbn [interpolatePoints snd]. rewrite Array_fill_normal by lia.
    eexists; split; [reflexivity|apply repeat_length].
  - destruct Hlen as [Hlen|Hlen]; [|simpl in Hlen; lia].
    cbn [interpolatePoints snd]. rewrite Array_fill_normal by lia.
    eexists; split; [reflexivity|apply repeat_length].
  - rewrite interpolatePoints_many. cbn [snd].
    eexists; split; [reflexivity|]. now rewrite length_map, upto_length.
Qed.

(** [Array(length)] is the only place that raises. *)
Lemma interpolatePoints_throws points (len : Z) :
  len < 0 \/ 4294967296 <= len -> (length points < 2)%nat ->
  snd (interpolatePoints points len) = Throw RangeError.
Proof.
  intros Hlen Hp.
  destruct points as [|p [|q l]]; try (simpl in Hp; lia);
    cbn [interpolatePoints snd]; now apply Array_fill_throws.
Qed.

Lemma hd_indep points (d d' : GraphPoint number) :
  points <> [] -> hd d points = hd d' points.
Proof. destruct points; [congruence|reflexivity]. Qed.

Lemma last_indep points (d d' : GraphPoint number) :
  points <> [] -> last points d = last points d'.
Proof.
  induction points as [|p [|q l] IH]; intros Hne; [congruence|reflexivity|].
  change (last (q :: l) d = last (q :: l) d'). apply IH. discriminate.
Qed.

Lemma sort_nonempty p points : sort (p :: points) <> [].
Proof.
  intros E. apply (f_equal (@length _)) in E. rewrite sort_length in E.
  discriminate.
Qed.

(** The value at index [year] when no neighbouring pair encloses [year]: it
    is computed from the first and the last point of the sorted curve. *)
Lemma interpolate_year_fallback (d d' : GraphPoint number) points (year : Z) :
  points <> [] -> find_bracket points year = None ->
  surrounding d points year = (hd d' points, last points d')
  /\ interpolate_year d points year
     = segment (hd d' points) (last points d') year.
Proof.
  intros Hne Hnone. unfold interpolate_year, surrounding. rewrite Hnone.
  rewrite (hd_indep points d d'), (last_indep points d d') by assumption.
  split; reflexivity.
Qed.

(** C3, as the code has it.  For a curve of two points or more and a year
    [y] of the result: when no control point has a year greater than [y],
    and also when every control point has a year greater than [y], the pair
    used is the first and the last point of the sorted curve, so the value
    lies on the line through these two. *)
Theorem interpolatePoints_outside_uses_first_and_last
  points (len y : Z) (d : GraphPoint number) :
  (2 <= length points)%nat ->
  0 <= y < len ->
  (forall p, In p points -> fst p <= y) \/ (forall p, In p points -> y < fst p) ->
  exists res,
    snd (interpolatePoints points len) = Normal res
    /\ surrounding d (sort points) y = (hd d (sort points), last (sort points) d)
    /\ at_index res y = segment (hd d (sort points)) (last (sort points) d) y.
Proof.
  intros Hlen Hy Hout.
  destruct points as [|p [|q l]]; try (simpl in Hlen; lia).
  rewrite interpolatePoints_many. cbn [snd].
  assert (Hnone : find_bracket (sort (p :: q :: l)) y = None).
  { destruct Hout as [Hb|Hb].
    - apply find_bracket_none_beyond. intros x Hx. apply Hb.
      eapply Permutation_in; [apply Permutation_sym, sort_perm|exact Hx].
    - apply find_bracket_none_below. intros x Hx. apply Hb.
      eapply Permutation_in; [apply Permutation_sym, sort_perm|exact Hx]. }
  eexists; split; [reflexivity|].
  rewrite at_index_map_upto by lia.
  split.
  - apply (interpolate_year_fallback d d); [apply sort_nonempty|exact Hnone].
  - apply (interpolate_year_fallback p d); [apply sort_nonempty|exact Hnone].
Qed.

(** C4, as the code has it.  [interpolatePoints] sorts the array it is
    given: after the call the caller's array holds the same control points,
    in ascending order of year (points of equal year keep their order); it
    is as before the call when it was in ascending order already, which
    covers the arrays of fewer than two points. *)
Theorem interpolatePoints_sorts_the_argument points (len : Z) :
  fst (interpolatePoints points len) = sort points
  /\ Permutation points (fst (interpolatePoints points len))
  /\ sorted (fst (interpolatePoints points len))
  /\ (sorted points -> fst (interpolatePoints points len) = points).
Proof.
  assert (E : fst (interpolatePoints points len) = sort points).
  { destruct points as [|p [|q l]]; reflexivity. }
  rewrite E. split; [reflexivity|]. split; [apply sort_perm|].
  split; [apply sort_sorted|apply sort_of_sorted].
Qed.

(** The value at a year enclosed by two neighbours of a sorted curve. *)
Lemma interpolatePoints_enclosed points (len y : Z) left right :
  sorted points -> consecutive left right points ->
  fst left <= y < fst right -> 0 <= y < len ->
  exists res,
    snd (interpolatePoints points len) = Normal res
    /\ length res = Z.to_nat len
    /\ at_index res y
       = lerp (snd left) (snd right)
           (of_Z (y - fst left) / of_Z (fst right - fst left))%js.
Proof.
  intros Hs Hc Hy Hlen.
  assert (Hfind := find_bracket_consecutive points left right y Hs Hc Hy).
  destruct points as [|p [|q l]]; try discriminate.
  rewrite interpolatePoints_many. cbn [snd].
  rewrite (sort_of_sorted _ Hs).
  eexists; split; [reflexivity|]. split; [now rewrite length_map, upto_length|].
  rewrite at_index_map_upto by lia.
  unfold interpolate_year, surrounding. rewrite Hfind. cbn [fst snd].
  unfold segment.
  replace (fst left =? fst right) with false by (symmetry; apply Z.eqb_neq; lia).
  reflexivity.
Qed.

End Interpolator.

(** ** The projection engine *)

Section Projection.

Context {number : Type} `{Arith number}.

Implicit Types (settings : Settings number) (v : script).

(** What the script [v] returns as [total] for the yearly payments [l]. *)
Lemma calculateCostOfOwnership_run v settings (ins maint : list number) :
  snd (interpolatePoints (r_insurancePoints (defaults settings))
         (r_expectedLife (defaults settings))) = Normal ins ->
  snd (interpolatePoints (r_maintenancePoints (defaults settings))
         (r_expectedLife (defaults settings))) = Normal maint ->
  calculateCostOfOwnership v settings =
  Normal
    (mkBreakdown
       (map (yearCost (defaults settings) ins maint)
          (upto (r_expectedLife (defaults settings))))
       match v with
       | car_cost_ts =>
           sum (map (yearCost (defaults settings) ins maint)
                  (upto (r_expectedLife (defaults settings))))
       | part_001 =>
           (sum (map (yearCost (defaults settings) ins maint)
                   (upto (r_expectedLife (defaults settings))))
            + r_downPayment (defaults settings))%js
       end).
Proof.
  intros Hi Hm. unfold calculateCostOfOwnership. rewrite Hi, Hm. reflexivity.
Qed.

(** The engine validates nothing.  It returns normally when [expectedLife]
    is at least 0 and less than 2^32, and also when both curves have two
    points or more. *)
Lemma calculateCostOfOwnership_normal v settings :
  0 <= r_expectedLife (defaults settings) < 4294967296
  \/ ((2 <= length (r_insurancePoints (defaults settings)))%nat
      /\ (2 <= length (r_maintenancePoints (defaults settings)))%nat) ->
  exists ins maint b,
    snd (interpolatePoints (r_insurancePoints (defaults settings))
           (r_expectedLife (defaults settings))) = Normal ins
    /\ length ins = Z.to_nat (r_expectedLife (defaults settings))
    /\ snd (interpolatePoints (r_maintenancePoints (defaults settings))
              (r_expectedLife (defaults settings))) = Normal maint
    /\ length maint = Z.to_nat (r_expectedLife (defaults settings))
    /\ calculateCostOfOwnership v settings = Normal b
    /\ yearlyBreakdown b
       = map (yearCost (defaults settings) ins maint)
           (upto (r_expectedLife (defaults settings))).
Proof.
  intros Hok.
  destruct (interpolatePoints_normal (r_insurancePoints (defaults settings))
              (r_expectedLife (defaults settings))) as (ins & Hi & Hil);
    [tauto|].
  destruct (interpolatePoints_normal (r_maintenancePoints (defaults settings))
              (r_expectedLife (defaults settings))) as (maint & Hm & Hml);
    [tauto|].
  exists ins, maint. eexists.
  repeat (split; [eassumption|]).
  rewrite (calculateCostOfOwnership_run v settings ins maint Hi Hm).
  split; reflexivity.
Qed.

(** What a run that returns has computed. *)
Lemma calculateCostOfOwnership_returned v settings (b : Breakdown number) :
  calculateCostOfOwnership v settings = Normal b ->
  exists ins maint,
    snd (interpolatePoints (r_insurancePoints (defaults settings))
           (r_expectedLife (defaults settings))) = Normal ins
    /\ length ins = Z.to_nat (r_expectedLife (defaults settings))
    /\ snd (interpolatePoints (r_maintenancePoints (defaults settings))
              (r_expectedLife (defaults settings))) = Normal maint
    /\ length maint = Z.to_nat (r_expectedLife (defaults settings))
    /\ yearlyBreakdown b
       = map (yearCost (defaults settings) ins maint)
           (upto (r_expectedLife (defaults settings)))
    /\ total b
       = match v with
         | car_cost_ts => sum (yearlyBreakdown b)
         | part_001 => (sum (yearlyBreakdown b) + r_downPayment (defaults settings))%js
         end.
Proof.
  intros Hb.
  destruct (snd (interpolatePoints (r_insurancePoints (defaults settings))
                   (r_expectedLife (defaults settings)))) as [ins|e] eqn:Hi.
  2:{ unfold calculateCostOfOwnership in Hb. rewrite Hi in Hb. discriminate. }
  destruct (snd (interpolatePoints (r_maintenancePoints (defaults settings))
                   (r_expectedLife (defaults settings)))) as [maint|e] eqn:Hm.
  2:{ unfold calculateCostOfOwnership in Hb. rewrite Hi, Hm in Hb. discriminate. }
  rewrite (calculateCostOfOwnership_run v settings ins maint Hi Hm) in Hb.
  exists ins, maint.
  assert (Hil : length ins = Z.to_nat (r_expectedLife (defaults settings))).
  { destruct (Z.lt_ge_cases (r_expectedLife (defaults settings)) 0) as [Hn|Hp];
      [|destruct (Z.lt_ge_cases (r_expectedLife (defaults settings)) 4294967296)
          as [Hs|Hg]];
      destruct (Nat.lt_ge_cases
                  (length (r_insurancePoints (defaults settings))) 2) as [Hsh|Hlo];
      try (rewrite interpolatePoints_throws in Hi by (auto; lia); discriminate);
      destruct (interpolatePoints_normal (r_insurancePoints (defaults settings))
                  (r_expectedLife (defaults settings))) as (r' & Hr' & Hl');
      try (right; lia); try (left; lia); congruence. }
  assert (Hml : length maint = Z.to_nat (r_expectedLife (defaults settings))).
  { destruct (Z.lt_ge_cases (r_expectedLife (defaults settings)) 0) as [Hn|Hp];
      [|destruct (Z.lt_ge_cases (r_expectedLife (defaults settings)) 4294967296)
          as [Hs|Hg]];
      destruct (Nat.lt_ge_cases
                  (length (r_maintenancePoints (defaults settings))) 2) as [Hsh|Hlo];
      try (rewrite interpolatePoints_throws in Hm by (auto; lia); discriminate);
      destruct (interpolatePoints_normal (r_maintenancePoints (defaults settings))
                  (r_expectedLife (defaults settings))) as (r' & Hr' & Hl');
      try (right; lia); try (left; lia); congruence. }
  repeat (split; [first [reflexivity | assumption]|]).
  assert (Hy : yearlyBreakdown b
               = map (yearCost (defaults settings) ins maint)
                   (upto (r_expectedLife (defaults settings))))
    by (injection Hb as <-; reflexivity).
  split; [exact Hy|].
  rewrite Hy. injection Hb as <-. destruct v; reflexivity.
Qed.

(** It raises in the remaining cases: an [expectedLife] that is negative or
    at least 2^32, together with a curve of fewer than two points. *)
Lemma calculateCostOfOwnership_throws v settings :
  r_expectedLife (defaults settings) < 0
  \/ 4294967296 <= r_expectedLife (defaults settings) ->
  (length (r_insurancePoints (defaults settings)) < 2)%nat
  \/ (length (r_maintenancePoints (defaults settings)) < 2)%nat ->
  calculateCostOfOwnership v settings = Throw RangeError.
Proof.
  intros Hneg Hshort. unfold calculateCostOfOwnership.
  destruct (Nat.lt_ge_cases (length (r_insurancePoints (defaults settings))) 2)
    as [Hi|Hi].
  - now rewrite interpolatePoints_throws.
  - destruct Hshort as [Hs|Hs]; [lia|].
    destruct (interpolatePoints_normal (r_insurancePoints (defaults settings))
                (r_expectedLife (defaults settings))) as (ins & -> & _);
      [now right|].
    cbn [bind]. now rewrite interpolatePoints_throws.
Qed.

(** The last line of the computation, script by script: [part_001] adds the
    down payment to the sum of the yearly payments, [car_cost_ts] returns
    the sum alone. *)
Lemma total_by_script settings :
  match calculateCostOfOwnership part_001 settings with
  | Normal b =>
      total b = (sum (yearlyBreakdown b) + r_downPayment (defaults settings))%js
  | Throw _ => True
  end
  /\ match calculateCostOfOwnership car_cost_ts settings with
     | Normal b => total b = sum (yearlyBreakdown b)
     | Throw _ => True
     end.
Proof.
  unfold calculateCostOfOwnership.
  destruct (snd (interpolatePoints (r_insurancePoints (defaults settings))
                   (r_expectedLife (defaults settings)))) as [ins|e];
    cbn [bind]; [|split; exact I].
  destruct (snd (interpolatePoints (r_maintenancePoints (defaults settings))
                   (r_expectedLife (defaults settings)))) as [maint|e];
    cbn [bind]; [|split; exact I].
  split; reflexivity.
Qed.

(** C5.  For every settings and every year index [i] of the breakdown, the
    entry is insurance + permit + maintenance of that year, to which the
    yearly loan payment is added exactly when [i < loanYears]; the breakdown
    has [expectedLife] entries, so a longer loan is charged for these years
    only, and the years from [loanYears] on carry no loan payment.  The run
    returns whenever [expectedLife] is less than 2^32. *)
Theorem loan_payment_added_iff_before_loanYears v settings (i : Z) :
  0 <= i < r_expectedLife (defaults settings) ->
  (r_expectedLife (defaults settings) < 4294967296 ->
   exists b, calculateCostOfOwnership v settings = Normal b)
  /\ forall b,
      calculateCostOfOwnership v settings = Normal b ->
      exists ins maint,
        snd (interpolatePoints (r_insurancePoints (defaults settings))
               (r_expectedLife (defaults settings))) = Normal ins
        /\ snd (interpolatePoints (r_maintenancePoints (defaults settings))
                  (r_expectedLife (defaults settings))) = Normal maint
        /\ length (yearlyBreakdown b)
           = Z.to_nat (r_expectedLife (defaults settings))
        /\ (Z.to_nat i < length ins)%nat
        /\ (Z.to_nat i < length maint)%nat
        /\ at_index (yearlyBreakdown b) i
           = if i <? r_loanYears (defaults settings)
             then (at_index ins i + r_yearlyPermitCost (defaults settings)
                   + at_index maint i + yearlyLoanPayment (defaults settings))%js
             else (at_index ins i + r_yearlyPermitCost (defaults settings)
                   + at_index maint i)%js.
Proof.
  intros Hi. split.
  - intros Hbound.
    destruct (calculateCostOfOwnership_normal v settings)
      as (ins & maint & b & _ & _ & _ & _ & Hb & _); [left; lia|].
    now exists b.
  - intros b Hb.
    destruct (calculateCostOfOwnership_returned v settings b Hb)
      as (ins & maint & Hins & Hil & Hmaint & Hml & Hy & _).
    exists ins, maint.
    repeat (split; [first [assumption | lia | idtac]|]).
    + rewrite Hy, length_map, upto_length. reflexivity.
    + rewrite Hy, at_index_map_upto by lia. unfold yearCost.
      destruct (i <? r_loanYears (defaults settings)); reflexivity.
Qed.

(** C6.  When [insurancePoints] is unset, [calculateCostOfOwnership]
    interpolates the curve [[0, 14000], [expectedLife - 1, 6500]] for the
    resolved [expectedLife]: the value of the settings, or 20 when that is
    unset too, which gives [[0, 14000], [19, 6500]].  The insurance part of
    every entry of the breakdown it returns comes from that curve, and it
    returns whenever the resolved [expectedLife] is at least 0 and less
    than 2^32. *)
Theorem default_insurance_curve v settings :
  insurancePoints settings = None ->
  r_expectedLife (defaults settings) = orElse (expectedLife settings) 20
  /\ r_insurancePoints (defaults settings)
     = [(0, of_Z 14000); (r_expectedLife (defaults settings) - 1, of_Z 6500)]
  /\ (expectedLife settings = None ->
      r_insurancePoints (defaults settings)
      = [(0, of_Z 14000); (19, of_Z 6500)])
  /\ (forall b,
        calculateCostOfOwnership v settings = Normal b ->
        exists ins maint,
          snd (interpolatePoints
                 [(0, of_Z 14000);
                  (orElse (expectedLife settings) 20 - 1, of_Z 6500)]
                 (orElse (expectedLife settings) 20)) = Normal ins
          /\ snd (interpolatePoints (r_maintenancePoints (defaults settings))
                    (orElse (expectedLife settings) 20)) = Normal maint
          /\ length (yearlyBreakdown b)
             = Z.to_nat (orElse (expectedLife settings) 20)
          /\ forall i,
               0 <= i < orElse (expectedLife settings) 20 ->
               at_index (yearlyBreakdown b) i
               = if i <? r_loanYears (defaults settings)
                 then (at_index ins i + r_yearlyPermitCost (defaults settings)
                       + at_index maint i
                       + yearlyLoanPayment (defaults settings))%js
                 else (at_index ins i + r_yearlyPermitCost (defaults settings)
                       + at_index maint i)%js)
  /\ (0 <= orElse (expectedLife settings) 20 < 4294967296 ->
      exists b, calculateCostOfOwnership v settings = Normal b).
Proof.
  intros Hnone.
  assert (Hel : r_expectedLife (defaults settings)
                = orElse (expectedLife settings) 20) by reflexivity.
  assert (Hcurve : r_insurancePoints (defaults settings)
                   = [(0, of_Z 14000);
                      (orElse (expectedLife settings) 20 - 1, of_Z 6500)]).
  { unfold defaults. cbn [r_insurancePoints]. rewrite Hnone. reflexivity. }
  split; [exact Hel|]. split; [rewrite Hel; exact Hcurve|].
  split; [intros Hlife; rewrite Hcurve, Hlife; reflexivity|].
  split.
  - intros b Hb.
    destruct (calculateCostOfOwnership_returned v settings b Hb)
      as (ins & maint & Hins & _ & Hmaint & _ & Hy & _).
    rewrite Hcurve, Hel in Hins. rewrite Hel in Hmaint, Hy.
    exists ins, maint. split; [exact Hins|]. split; [exact Hmaint|].
    split; [now rewrite Hy, length_map, upto_length|].
    intros i Hi. rewrite Hy, at_index_map_upto by lia. unfold yearCost.
    destruct (i <? r_loanYears (defaults settings)); reflexivity.
  - intros Hbound.
    destruct (calculateCostOfOwnership_normal v settings)
      as (ins & maint & b & _ & _ & _ & _ & Hb & _); [left; rewrite Hel; lia|].
    now exists b.
Qed.

End Projection.

(** ** Exact arithmetic *)

Lemma Qnum_zero (q : Q) : Qnum q = 0 <-> (q == 0)%Q.
Proof. unfold Qeq. simpl. lia. Qed.

Lemma Qnum_Qred_zero (q : Q) : Qnum (Qred q) = 0 <-> (q == 0)%Q.
Proof. rewrite Qnum_zero. now rewrite Qred_correct. Qed.

Lemma sgn_pos (q : Q) : (0 < q)%Q -> sgn q = 1.
Proof. unfold Qlt, sgn. simpl. intros. apply Z.sgn_pos. lia. Qed.

Lemma sgn_neg (q : Q) : (q < 0)%Q -> sgn q = -1.
Proof. unfold Qlt, sgn. simpl. intros. apply Z.sgn_neg. lia. Qed.

Lemma sgn_Qred (q : Q) : sgn (Qred q) = sgn q.
Proof.
  destruct (Q_dec q 0) as [[Hlt|Hgt]|Heq].
  - rewrite !sgn_neg; auto. now rewrite Qred_correct.
  - rewrite !sgn_pos; auto. now rewrite Qred_correct.
  - unfold sgn. replace (Qnum (Qred q)) with 0 by (symmetry; now apply Qnum_Qred_zero).
    replace (Qnum q) with 0 by (symmetry; now apply Qnum_zero). reflexivity.
Qed.

Lemma xdiv_fin (a b : Q) :
  ~ (b == 0)%Q -> xdiv (Fin a) (Fin b) = Fin (Qred (a / b)).
Proof.
  intros Hb. unfold xdiv.
  destruct (Qnum b =? 0) eqn:E; [|reflexivity].
  apply Z.eqb_eq, Qnum_zero in E. contradiction.
Qed.

Lemma lerp_exact (s e : xnum) (p : Q) :
  xeq (lerp s e (Fin p)) (xadd s (xmul (Fin p) (xsub e s))).
Proof.
  unfold lerp. cbn [sub mul xnum_arith].
  destruct s as [s| | |], e as [e| | |]; cbn [xsub xadd xneg xmul xeq]; try exact I.
  1: rewrite !Qred_correct; ring.
  all: unfold sgn; destruct (Qnum p); cbn; exact I.
Qed.

Lemma Fin_Qred_eq (a b : Q) : (a == b)%Q -> Fin (Qred a) = Fin (Qred b).
Proof. intros E. f_equal. now apply Qred_complete. Qed.

Lemma of_Z_xnum (z : Z) : of_Z z = Fin (Qred (inject_Z z)).
Proof. reflexivity. Qed.

Lemma of_Z_nonzero (z : Z) : z <> 0 -> ~ (Qred (inject_Z z) == 0)%Q.
Proof.
  intros Hz E. rewrite Qred_correct in E. unfold Qeq, inject_Z in E. simpl in E. lia.
Qed.

(** Unfolds [calculateLoanPayments] down to the operations of [xnum]. *)
Ltac loan_steps :=
  unfold calculateLoanPayments;
  change (of_Z 12) with (Fin 12); change (of_Z 1) with (Fin 1);
  rewrite ?of_Z_xnum;
  cbn [add sub mul div pow xnum_arith].

(** With a zero rate the annuity formula is [0 / 0]. *)
Lemma calculateLoanPayments_zero_rate (p r : Q) (years : Z) :
  (r == 0)%Q -> calculateLoanPayments (Fin p) (Fin r) years = NaN.
Proof.
  intros Hr. loan_steps.
  assert (Hm : xdiv (Fin r) (Fin 12) = Fin 0).
  { rewrite xdiv_fin by discriminate.
    change (Fin 0) with (Fin (Qred 0)). apply Fin_Qred_eq. rewrite Hr. reflexivity. }
  rewrite Hm.
  assert (HP : xpow (xadd (Fin 1) (Fin 0)) (years * 12) = Fin 1).
  { change (xadd (Fin 1) (Fin 0)) with (Fin 1).
    unfold xpow. destruct (years * 12 =? 0); [reflexivity|].
    cbn [Qnum andb Z.eqb]. change (Fin 1) with (Fin (Qred 1)).
    apply Fin_Qred_eq, Qpower_1. }
  rewrite HP.
  replace (xmul (Fin p) (Fin 0)) with (Fin 0).
  2:{ cbn [xmul]. change (Fin 0) with (Fin (Qred 0)) at 1. apply Fin_Qred_eq. ring. }
  reflexivity.
Qed.

Lemma xeq_refl (a : xnum) : xeq a a.
Proof. destruct a; simpl; [reflexivity|exact I..]. Qed.

Lemma xadd_zero_r (a : xnum) (t : Q) : (t == 0)%Q -> xeq (xadd a (Fin t)) a.
Proof.
  intros Ht. destruct a as [q| | |]; cbn [xadd xeq]; try exact I.
  rewrite Qred_correct, Ht. ring.
Qed.

(** ** The laws of zeros and signs, in exact arithmetic *)

Lemma x_regular_fin (a : xnum) :
  x_negative a \/ x_positive a -> exists q, a = Fin q /\ ~ (q == 0)%Q.
Proof.
  destruct a as [q| | |]; cbn [x_negative x_positive]; try tauto.
  intros Hq. exists q. split; [reflexivity|]. intros E. rewrite E in Hq.
  destruct Hq as [Hq|Hq]; exact (Qlt_irrefl _ Hq).
Qed.

Lemma x_fin_regular (q : Q) :
  ~ (q == 0)%Q -> x_negative (Fin q) \/ x_positive (Fin q).
Proof.
  intros Hq. cbn [x_negative x_positive].
  destruct (Q_dec q 0) as [[Hlt|Hgt]|Heq]; [now left|now right|contradiction].
Qed.

Lemma x_regular_inf_of_sign (s : Z) :
  ~ (x_negative (inf_of_sign s) \/ x_positive (inf_of_sign s)).
Proof. destruct s; cbn [inf_of_sign x_negative x_positive]; tauto. Qed.

Lemma x_zero_mul (z x : xnum) :
  x_is_zero z -> x_negative x \/ x_positive x -> x_is_zero (xmul z x).
Proof.
  intros Hz Hx. apply x_regular_fin in Hx. destruct Hx as (q & -> & _).
  destruct z as [p| | |]; cbn [x_is_zero] in Hz; try contradiction.
  cbn [xmul x_is_zero]. rewrite Qred_correct, Hz. ring.
Qed.

Lemma x_zero_div (z x : xnum) :
  x_is_zero z -> x_negative x \/ x_positive x -> x_is_zero (xdiv z x).
Proof.
  intros Hz Hx. apply x_regular_fin in Hx. destruct Hx as (q & -> & Hq).
  destruct z as [p| | |]; cbn [x_is_zero] in Hz; try contradiction.
  rewrite xdiv_fin by exact Hq.
  cbn [x_is_zero]. rewrite Qred_correct. unfold Qdiv. rewrite Hz. ring.
Qed.

Lemma x_add_zero (x z : xnum) : x_is_zero z -> xeq (xadd x z) x.
Proof.
  intros Hz. destruct z as [t| | |]; cbn [x_is_zero] in Hz; try contradiction.
  now apply xadd_zero_r.
Qed.

Lemma x_mul_regular (x y : xnum) :
  x_negative (xmul x y) \/ x_positive (xmul x y) ->
  (x_negative x \/ x_positive x) /\ (x_negative y \/ x_positive y).
Proof.
  destruct x as [p| | |], y as [q| | |]; cbn [xmul];
    try (intros Hxy; exfalso;
         first [exact (x_regular_inf_of_sign _ Hxy)
               | cbn [x_negative x_positive] in Hxy; tauto]).
  intros Hxy. apply x_regular_fin in Hxy. destruct Hxy as (t & Ht & Hnz).
  assert (Hpq : ~ (p * q == 0)%Q).
  { intros E. apply Hnz.
    assert (Et : t = Qred (p * q)) by congruence.
    rewrite Et, Qred_correct. exact E. }
  split; apply x_fin_regular; intros E; apply Hpq; rewrite E; ring.
Qed.

Lemma x_div_regular (x y : xnum) :
  x_negative (xdiv x y) \/ x_positive (xdiv x y) ->
  (x_negative x \/ x_positive x) /\ (x_negative y \/ x_positive y).
Proof.
  destruct x as [p| | |], y as [q| | |]; cbn [xdiv];
    try (intros Hxy; exfalso; cbn [x_negative x_positive] in Hxy;
         destruct Hxy as [Hxy|Hxy];
         first [contradiction | exact (Qlt_irrefl _ Hxy)]).
  - destruct (Qnum q =? 0) eqn:E.
    + intros Hxy. exfalso. exact (x_regular_inf_of_sign _ Hxy).
    + intros Hxy. apply x_regular_fin in Hxy. destruct Hxy as (t & Ht & Hnz).
      assert (Hpq : ~ (p / q == 0)%Q).
      { intros E0. apply Hnz.
        assert (Et : t = Qred (p / q)) by congruence.
        rewrite Et, Qred_correct. exact E0. }
      split; apply x_fin_regular.
      * intros E0. apply Hpq. unfold Qdiv. rewrite E0. ring.
      * intros E0. apply Qnum_zero in E0. apply Z.eqb_neq in E. contradiction.
  - destruct (sgn q <? 0); intros Hxy; exfalso;
      cbn [x_negative x_positive] in Hxy; tauto.
  - destruct (sgn q <? 0); intros Hxy; exfalso;
      cbn [x_negative x_positive] in Hxy; tauto.
Qed.

Lemma x_mul_negative (x y : xnum) :
  x_negative x -> x_positive y ->
  x_negative (xmul x y) \/ x_positive (xmul x y) -> x_negative (xmul x y).
Proof.
  destruct x as [p| | |]; cbn [x_negative]; try contradiction.
  destruct y as [q| | |]; cbn [x_positive]; try contradiction.
  intros Hp Hq _. cbn [xmul x_negative]. rewrite Qred_correct.
  setoid_replace 0%Q with (0 * q)%Q by ring.
  now apply Qmult_lt_compat_r.
Qed.

Lemma x_div_negative (x y : xnum) :
  x_negative x -> x_positive y ->
  x_negative (xdiv x y) \/ x_positive (xdiv x y) -> x_negative (xdiv x y).
Proof.
  destruct x as [p| | |]; cbn [x_negative]; try contradiction.
  destruct y as [q| | |]; cbn [x_positive]; try contradiction.
  intros Hp Hq _.
  rewrite xdiv_fin by (intros E; rewrite E in Hq; exact (Qlt_irrefl _ Hq)).
  cbn [x_negative]. rewrite Qred_correct. unfold Qdiv.
  setoid_replace 0%Q with (0 * / q)%Q by ring.
  apply Qmult_lt_compat_r; [now apply Qinv_lt_0_compat|exact Hp].
Qed.

#[export] Instance xnum_ieee754 : Ieee754 xnum := {
  is_zero := x_is_zero;
  negative := x_negative;
  positive := x_positive;
  same := xeq;
  zero_minus_zero := Qeq_refl 0;
  twelve_positive := eq_refl;
  zero_mul := x_zero_mul;
  zero_div := x_zero_div;
  add_zero := x_add_zero;
  same_refl := xeq_refl;
  mul_regular := x_mul_regular;
  div_regular := x_div_regular;
  mul_negative := x_mul_negative;
  div_negative := x_div_negative
}.

(** ** The laws of zeros and signs, in binary64 *)

Lemma f_regular_finite (x : PrimFloat.float) :
  f_signed true x \/ f_signed false x ->
  exists s m e, FloatOps.Prim2SF x = SpecFloat.S754_finite s m e.
Proof. intros [(m & e & Hx)|(m & e & Hx)]; eauto. Qed.

Lemma f_finite_regular (x : PrimFloat.float) s m e :
  FloatOps.Prim2SF x = SpecFloat.S754_finite s m e ->
  f_signed true x \/ f_signed false x.
Proof. intros Hx. destruct s; [left|right]; exists m, e; exact Hx. Qed.

Lemma f_zero_minus_zero Math_pow :
  f_is_zero (@sub _ (binary64 Math_pow)
               (@of_Z _ (binary64 Math_pow) 0) (@of_Z _ (binary64 Math_pow) 0)).
Proof. exists false. vm_compute. reflexivity. Qed.

Lemma f_twelve_positive Math_pow :
  f_signed false (@of_Z _ (binary64 Math_pow) 12).
Proof. unfold f_signed. vm_compute. do 2 eexists. reflexivity. Qed.

Lemma f_zero_mul (z x : PrimFloat.float) :
  f_is_zero z -> f_signed true x \/ f_signed false x ->
  f_is_zero (PrimFloat.mul z x).
Proof.
  intros (s & Hz) Hx. apply f_regular_finite in Hx.
  destruct Hx as (s' & m & e & Hx). unfold f_is_zero.
  rewrite FloatAxioms.mul_spec, Hz, Hx. eexists. reflexivity.
Qed.

Lemma f_zero_div (z x : PrimFloat.float) :
  f_is_zero z -> f_signed true x \/ f_signed false x ->
  f_is_zero (PrimFloat.div z x).
Proof.
  intros (s & Hz) Hx. apply f_regular_finite in Hx.
  destruct Hx as (s' & m & e & Hx). unfold f_is_zero.
  rewrite FloatAxioms.div_spec, Hz, Hx. eexists. reflexivity.
Qed.

Lemma f_add_zero (x z : PrimFloat.float) :
  f_is_zero z -> f_same (PrimFloat.add x z) x.
Proof.
  intros (s & Hz). unfold f_same.
  destruct (FloatOps.Prim2SF x) as [sx|sx| |sx m e] eqn:Hx.
  - right. split; [|now exists sx]. unfold f_is_zero.
    rewrite FloatAxioms.add_spec, Hz, Hx. destruct sx, s; eexists; reflexivity.
  - left. apply FloatAxioms.Prim2SF_inj.
    now rewrite FloatAxioms.add_spec, Hz, Hx.
  - left. apply FloatAxioms.Prim2SF_inj.
    now rewrite FloatAxioms.add_spec, Hz, Hx.
  - left. apply FloatAxioms.Prim2SF_inj.
    now rewrite FloatAxioms.add_spec, Hz, Hx.
Qed.

Lemma f_same_refl (x : PrimFloat.float) : f_same x x.
Proof. now left. Qed.

(** Rounding keeps the sign. *)
Lemma binary_round_aux_sign prec emax s mx ex lx s' m e :
  SpecFloat.binary_round_aux prec emax s mx ex lx = SpecFloat.S754_finite s' m e ->
  s' = s.
Proof.
  unfold SpecFloat.binary_round_aux.
  destruct (SpecFloat.shr_fexp prec emax mx ex lx) as [mrs' e'].
  destruct (SpecFloat.shr_fexp prec emax _ e' SpecFloat.loc_Exact) as [mrs'' e''].
  destruct (SpecFloat.shr_m mrs'') as [|p|p]; try discriminate.
  destruct (e'' <=? emax - prec); [|discriminate].
  intros E. injection E as <- _ _. reflexivity.
Qed.

Lemma f_mul_regular (x y : PrimFloat.float) :
  f_signed true (PrimFloat.mul x y) \/ f_signed false (PrimFloat.mul x y) ->
  (f_signed true x \/ f_signed false x) /\ (f_signed true y \/ f_signed false y).
Proof.
  intros Hxy. apply f_regular_finite in Hxy. destruct Hxy as (s & m & e & H).
  rewrite FloatAxioms.mul_spec in H.
  destruct (FloatOps.Prim2SF x) as [sx|sx| |sx mx ex] eqn:Hx;
    destruct (FloatOps.Prim2SF y) as [sy|sy| |sy my ey] eqn:Hy;
    try discriminate H.
  split; eapply f_finite_regular; eassumption.
Qed.

Lemma f_div_regular (x y : PrimFloat.float) :
  f_signed true (PrimFloat.div x y) \/ f_signed false (PrimFloat.div x y) ->
  (f_signed true x \/ f_signed false x) /\ (f_signed true y \/ f_signed false y).
Proof.
  intros Hxy. apply f_regular_finite in Hxy. destruct Hxy as (s & m & e & H).
  rewrite FloatAxioms.div_spec in H.
  destruct (FloatOps.Prim2SF x) as [sx|sx| |sx mx ex] eqn:Hx;
    destruct (FloatOps.Prim2SF y) as [sy|sy| |sy my ey] eqn:Hy;
    try discriminate H.
  split; eapply f_finite_regular; eassumption.
Qed.

Lemma f_mul_negative (x y : PrimFloat.float) :
  f_signed true x -> f_signed false y ->
  f_signed true (PrimFloat.mul x y) \/ f_signed false (PrimFloat.mul x y) ->
  f_signed true (PrimFloat.mul x y).
Proof.
  intros (mx & ex & Hx) (my & ey & Hy) Hxy.
  apply f_regular_finite in Hxy. destruct Hxy as (s & m & e & H).
  unfold f_signed. rewrite H. rewrite FloatAxioms.mul_spec, Hx, Hy in H.
  unfold FloatAxioms.SF64mul, SpecFloat.SFmul in H.
  apply binary_round_aux_sign in H. subst s.
  do 2 eexists; reflexivity.
Qed.

Lemma f_div_negative (x y : PrimFloat.float) :
  f_signed true x -> f_signed false y ->
  f_signed true (PrimFloat.div x y) \/ f_signed false (PrimFloat.div x y) ->
  f_signed true (PrimFloat.div x y).
Proof.
  intros (mx & ex & Hx) (my & ey & Hy) Hxy.
  apply f_regular_finite in Hxy. destruct Hxy as (s & m & e & H).
  unfold f_signed. rewrite H. rewrite FloatAxioms.div_spec, Hx, Hy in H.
  unfold FloatAxioms.SF64div, SpecFloat.SFdiv in H.
  destruct (SpecFloat.SFdiv_core_binary _ _ _ _ _ _) as [[mz ez] lz].
  apply binary_round_aux_sign in H. subst s.
  do 2 eexists; reflexivity.
Qed.

(** The laws hold of JavaScript's numbers, whatever [Math.pow] computes. *)
Definition binary64_ieee754
  (Math_pow : PrimFloat.float -> Z -> PrimFloat.float)
  : @Ieee754 PrimFloat.float (binary64 Math_pow) := {|
  is_zero := f_is_zero;
  negative := f_signed true;
  positive := f_signed false;
  same := f_same;
  zero_minus_zero := f_zero_minus_zero Math_pow;
  twelve_positive := f_twelve_positive Math_pow;
  zero_mul := f_zero_mul;
  zero_div := f_zero_div;
  add_zero := f_add_zero;
  same_refl := f_same_refl;
  mul_regular := f_mul_regular;
  div_regular := f_div_regular;
  mul_negative := f_mul_negative;
  div_negative := f_div_negative
|}.

(** ** The loan payment of a zero or negative principal *)

Section Payment.

Context {number : Type} `{Ieee754 number}.




End Payment.

(** ** The claims on the values computed *)

(** C7.  For a sorted curve, neighbouring points [left] and [right] and a
    year [y] of the result with [left.year <= y < right.year], the value at
    [y] is [left.cost + t * (right.cost - left.cost)] with
    [t = (y - left.year) / (right.year - left.year)].  The curve
    [[0, 100], [10, 200]] at length 11 has 100 at index 0, 150 at index 5
    and 200 at index 10. *)
Theorem interpolatePoints_linear_between_neighbours
  (points : list (GraphPoint xnum)) (len y : Z) (left right : GraphPoint xnum) :
  sorted points -> consecutive left right points ->
  fst left <= y < fst right -> 0 <= y < len ->
  (exists res,
     snd (interpolatePoints points len) = Normal res
     /\ xeq (at_index res y)
          (snd left
           + (of_Z (y - fst left) / of_Z (fst right - fst left))
             * (snd right - snd left))%js)
  /\ snd (interpolatePoints two_point_curve 11)
     = Normal [Fin 100; Fin 110; Fin 120; Fin 130; Fin 140; Fin 150;
               Fin 160; Fin 170; Fin 180; Fin 190; Fin 200].
Proof.
  intros Hs Hc Hy Hlen. split; [|reflexivity].
  destruct (interpolatePoints_enclosed points len y left right Hs Hc Hy Hlen)
    as (res & Hres & _ & Hat).
  exists res. split; [exact Hres|]. rewrite Hat, !of_Z_xnum.
  cbn [add sub mul div xnum_arith].
  rewrite xdiv_fin by (apply of_Z_nonzero; lia).
  apply lerp_exact.
Qed.

(** C2, on the code.  There is no branch for a zero rate: with
    [loanRate = 0] the annuity formula is evaluated as it stands, its
    quotient is [0 / 0], and the yearly loan payment is NaN for every finite
    cost and down payment and every loan term.  For
    [{ cost: 12000, loanRate: 0, expectedLife: 6 }] the four loan years and
    the total are NaN, where straight-line repayment would give 3000 a year. *)
Theorem zero_rate_yearly_payment_is_nan :
  (forall (c d : Q) loanYears expectedLife insurance permit maintenance,
      yearlyLoanPayment
        (defaults
           (mkSettings (Some (Fin c)) (Some (Fin d)) (Some (Fin 0)) loanYears
              expectedLife insurance permit maintenance)) = NaN)
  /\ yearlyLoanPayment (defaults interest_free) = NaN
  /\ (forall v,
         calculateCostOfOwnership v interest_free
         = Normal (mkBreakdown [NaN; NaN; NaN; NaN; Fin 12443; Fin 11143] NaN))
  /\ ((Fin 12000 - Fin 0) / of_Z 4)%js = Fin 3000.
Proof.
  split; [|split; [reflexivity|split; [intros []; reflexivity|reflexivity]]].
  intros c d loanYears expectedLife insurance permit maintenance.
  unfold yearlyLoanPayment, principal, defaults.
  cbn [r_cost r_downPayment r_loanRate r_loanYears orElse cost
         downPayment loanRate sub xnum_arith xsub].
  rewrite calculateLoanPayments_zero_rate by reflexivity.
  reflexivity.
Qed.



(** C1, on the code.  The script [part_001] returns the sum of the yearly
    payments plus the down payment; the script [car_cost_ts] returns the sum
    alone.  For the cash purchase
    [{ cost: 50000, downPayment: 50000, expectedLife: 2 }] the yearly
    payments are 17643 and 10343 in both; [part_001] gives the total 77986,
    [car_cost_ts] gives 27986. *)
Theorem car_cost_ts_total_leaves_out_down_payment :
  calculateCostOfOwnership car_cost_ts cash_purchase
  = Normal (mkBreakdown [Fin 17643; Fin 10343] (Fin 27986))
  /\ calculateCostOfOwnership part_001 cash_purchase
     = Normal (mkBreakdown [Fin 17643; Fin 10343] (Fin 77986))
  /\ r_downPayment (defaults cash_purchase) = Fin 50000
  /\ (sum [Fin 17643; Fin 10343] + r_downPayment (defaults cash_purchase))%js
     = Fin 77986
  /\ sum [Fin 17643; Fin 10343] = Fin 27986
  /\ Fin 27986 <> Fin 77986.
Proof.
  repeat (split; [reflexivity|]). discriminate.
Qed.

(** ** The theorems at concrete inputs *)


Lemma interpolatePoints_outside_uses_first_and_last_witness :
  (2 <= length plateau_curve)%nat
  /\ 0 <= 3 < 4
  /\ (forall p, In p plateau_curve -> fst p <= 3)
  /\ exists res,
       snd (interpolatePoints plateau_curve 4) = Normal res
       /\ surrounding (0, Fin 0) plateau_curve 3 = ((0, Fin 0), (2, Fin 10))
       /\ at_index res 3 = segment (0, Fin 0) (2, Fin 10) 3.
Proof.
  assert (Hall : forall p, In p plateau_curve -> fst p <= 3).
  { intros p [<-|[<-|[<-|[]]]]; simpl; lia. }
  split; [simpl; lia|]. split; [lia|]. split; [exact Hall|].
  destruct (interpolatePoints_outside_uses_first_and_last
              plateau_curve 4 3 (0, Fin 0))
    as (res & Hres & Hpair & Hat); [simpl; lia|lia|left; exact Hall|].
  exists res. split; [exact Hres|]. split; [exact Hpair|exact Hat].
Defined.

Lemma interpolatePoints_sorts_the_argument_witness :
  sorted two_point_curve
  /\ fst (interpolatePoints two_point_curve 11) = two_point_curve
  /\ fst (interpolatePoints unsorted_curve 1) = [(0, Fin 2); (5, Fin 1)].
Proof.
  assert (Hs : sorted two_point_curve).
  { repeat constructor. unfold by_year. simpl. lia. }
  split; [exact Hs|].
  split.
  - exact (proj2 (proj2 (proj2
             (interpolatePoints_sorts_the_argument two_point_curve 11))) Hs).
  - exact (proj1 (interpolatePoints_sorts_the_argument unsorted_curve 1)).
Defined.

Lemma loan_payment_added_iff_before_loanYears_witness :
  0 <= 1 < r_expectedLife (defaults overpaid)
  /\ r_loanYears (defaults overpaid) = 1
  /\ exists b,
       calculateCostOfOwnership part_001 overpaid = Normal b
       /\ length (yearlyBreakdown b) = 2%nat
       /\ at_index (yearlyBreakdown b) 1 = Fin 10343.
Proof.
  split; [simpl; lia|]. split; [reflexivity|].
  destruct (loan_payment_added_iff_before_loanYears part_001 overpaid 1)
    as (Hret & Hall); [simpl; lia|].
  destruct Hret as (b & Hb); [simpl; lia|].
  destruct (Hall b Hb) as (ins & maint & Hins & Hmaint & Hlen & _ & _ & Hat).
  exists b. split; [exact Hb|]. split; [exact Hlen|].
  rewrite Hat.
  injection Hins as <-. injection Hmaint as <-. reflexivity.
Defined.

Lemma default_insurance_curve_witness :
  insurancePoints all_unset = None
  /\ expectedLife all_unset = None
  /\ r_insurancePoints (defaults all_unset) = [(0, Fin 14000); (19, Fin 6500)]
  /\ insurancePoints only_life = None
  /\ r_insurancePoints (defaults only_life) = [(0, Fin 14000); (2, Fin 6500)]
  /\ exists b ins,
       calculateCostOfOwnership car_cost_ts only_life = Normal b
       /\ snd (interpolatePoints [(0, Fin 14000); (2, Fin 6500)] 3) = Normal ins
       /\ ins = [Fin 14000; Fin 10250; Fin 6500]
       /\ length (yearlyBreakdown b) = 3%nat.
Proof.
  split; [reflexivity|]. split; [reflexivity|]. split.
  { exact (proj1 (proj2 (proj2 (default_insurance_curve car_cost_ts all_unset
                                  eq_refl))) eq_refl). }
  split; [reflexivity|]. split.
  { exact (proj1 (proj2 (default_insurance_curve car_cost_ts only_life
                           eq_refl))). }
  destruct (default_insurance_curve car_cost_ts only_life eq_refl)
    as (_ & _ & _ & Hrun & Hret).
  destruct Hret as (b & Hb); [simpl; lia|].
  destruct (Hrun b Hb) as (ins & maint & Hins & _ & Hlen & _).
  exists b, ins. split; [exact Hb|]. split; [exact Hins|].
  split; [|exact Hlen].
  injection Hins as <-. reflexivity.
Defined.

Lemma interpolatePoints_linear_between_neighbours_witness :
  sorted two_point_curve
  /\ consecutive (0, Fin 100) (10, Fin 200) two_point_curve
  /\ 0 <= 5 < 10
  /\ exists res,
       snd (interpolatePoints two_point_curve 11) = Normal res
       /\ xeq (at_index res 5) (Fin 150).
Proof.
  assert (Hs : sorted two_point_curve).
  { repeat constructor. unfold by_year. simpl. lia. }
  assert (Hc : consecutive (0, Fin 100) (10, Fin 200) two_point_curve).
  { exists [], []. reflexivity. }
  split; [exact Hs|]. split; [exact Hc|]. split; [lia|].
  destruct (interpolatePoints_linear_between_neighbours
              two_point_curve 11 5 (0, Fin 100) (10, Fin 200) Hs Hc)
    as ((res & Hres & Hval) & _); [simpl; lia|lia|].
  exists res. split; [exact Hres|exact Hval].
Defined.



(** ** Where the specification and the code part *)

(** C3, as stated, fails.  On the sorted curve
    [[0, 0], [1, 10], [2, 10]] no point has a year greater than 3, the last
    two points are [(1, 10)] and [(2, 10)], and the pair used at year 3 is
    [(0, 0)], [(2, 10)]: the value is 15, not the 10 of the final segment.
    On [[2, 0], [3, 0], [4, 10]] year 0 lies before the first point, the
    first two points are [(2, 0)] and [(3, 0)], and the pair used is
    [(2, 0)], [(4, 10)]: the value is -10, not 0. *)
Lemma last_two_points_counterexample :
  (sorted plateau_curve
   /\ (forall p, In p plateau_curve -> fst p <= 3)
   /\ spec_last_two plateau_curve = Some ((1, Fin 10), (2, Fin 10))
   /\ surrounding (0, Fin 0) plateau_curve 3 = ((0, Fin 0), (2, Fin 10))
   /\ Some (surrounding (0, Fin 0) plateau_curve 3) <> spec_last_two plateau_curve
   /\ snd (interpolatePoints plateau_curve 4)
      = Normal [Fin 0; Fin 10; Fin 10; Fin 15]
   /\ segment (1, Fin 10) (2, Fin 10) 3 = Fin 10)
  /\ (sorted late_curve
      /\ (forall p, In p late_curve -> 0 < fst p)
      /\ spec_first_two late_curve = Some ((2, Fin 0), (3, Fin 0))
      /\ surrounding (2, Fin 0) late_curve 0 = ((2, Fin 0), (4, Fin 10))
      /\ Some (surrounding (2, Fin 0) late_curve 0) <> spec_first_two late_curve
      /\ snd (interpolatePoints late_curve 1) = Normal [Fin (-10)]
      /\ segment (2, Fin 0) (3, Fin 0) 0 = Fin 0).
Proof.
  split.
  - split; [repeat constructor; unfold by_year; simpl; lia|].
    split; [intros p [<-|[<-|[<-|[]]]]; simpl; lia|].
    split; [reflexivity|]. split; [reflexivity|].
    split; [discriminate|]. split; reflexivity.
  - split; [repeat constructor; unfold by_year; simpl; lia|].
    split; [intros p [<-|[<-|[<-|[]]]]; simpl; lia|].
    split; [reflexivity|]. split; [reflexivity|].
    split; [discriminate|]. split; reflexivity.
Qed.

(** C4, as stated, fails.  After [interpolatePoints([[5, 1], [0, 2]], 1)] the
    caller's array is [[0, 2], [5, 1]]. *)
Lemma argument_reordered_counterexample :
  fst (interpolatePoints unsorted_curve 1) = [(0, Fin 2); (5, Fin 1)]
  /\ fst (interpolatePoints unsorted_curve 1) <> unsorted_curve.
Proof. split; [reflexivity|discriminate]. Qed.




(** ** More on the interpolator *)

Section MoreInterpolator.

Context {number : Type} `{Arith number}.

Implicit Types (points : list (GraphPoint number)) (p q : GraphPoint number).

Lemma interpolate_year_indep (d d' : GraphPoint number) points (year : Z) :
  points <> [] -> interpolate_year d points year = interpolate_year d' points year.
Proof.
  intros Hne. unfold interpolate_year, surrounding.
  destruct (find_bracket points year); [reflexivity|].
  now rewrite (hd_indep points d d'), (last_indep points d d').
Qed.

Lemma interpolatePoints_of_sorted points (len : Z) :
  interpolatePoints (sort points) len = interpolatePoints points len.
Proof.
  destruct points as [|p [|q l]]; try reflexivity.
  rewrite (interpolatePoints_many p q l).
  assert (Hlen : length (sort (p :: q :: l)) = length (p :: q :: l))
    by apply sort_length.
  destruct (sort (p :: q :: l)) as [|s0 [|s1 s]] eqn:E; try discriminate.
  rewrite interpolatePoints_many.
  assert (Hs : sort (s0 :: s1 :: s) = s0 :: s1 :: s).
  { apply sort_of_sorted. rewrite <- E. apply sort_sorted. }
  rewrite Hs. f_equal. f_equal. apply map_ext. intros y.
  apply interpolate_year_indep. discriminate.
Qed.

Lemma interpolatePoints_leaves_sorted points (len : Z) :
  fst (interpolatePoints points len) = sort points.
Proof. destruct points as [|p [|q l]]; reflexivity. Qed.

(** X4.  A second call of [interpolatePoints] on the array as the first call
    left it returns the same values and leaves the array as it is. *)
Theorem interpolatePoints_second_call points (len : Z) :
  interpolatePoints (fst (interpolatePoints points len)) len
  = interpolatePoints points len.
Proof.
  rewrite interpolatePoints_leaves_sorted. apply interpolatePoints_of_sorted.
Qed.

(** Sorted curves with pairwise distinct years are determined by their
    points. *)
Lemma sorted_perm_eq points points' :
  sorted points -> sorted points' -> Permutation points points' ->
  NoDup (map fst points) -> points = points'.
Proof.
  revert points'. induction points as [|a t IH]; intros l' Hs Hs' Hp Hnd.
  - apply Permutation_nil in Hp. now subst.
  - destruct l' as [|b t'].
    { apply Permutation_sym, Permutation_nil in Hp. discriminate. }
    inversion Hs as [|? ? Hst Ha]; subst.
    inversion Hs' as [|? ? Hst' Hb]; subst.
    inversion Hnd as [|? ? Hnotin Hnd']; subst.
    assert (Hab : a = b).
    { assert (Hin : In a (b :: t')) by (eapply Permutation_in; [exact Hp|now left]).
      destruct Hin as [->|Hin]; [reflexivity|].
      assert (Hin' : In b (a :: t))
        by (eapply Permutation_in; [apply Permutation_sym; exact Hp|now left]).
      destruct Hin' as [->|Hin']; [reflexivity|].
      rewrite Forall_forall in Ha, Hb.
      assert (by_year a b) by now apply Ha.
      assert (by_year b a) by now apply Hb.
      unfold by_year in *. exfalso. apply Hnotin.
      replace (fst a) with (fst b) by lia. now apply in_map. }
    subst b. f_equal. apply IH; auto.
    eapply Permutation_cons_inv; exact Hp.
Qed.

Lemma sort_perm_eq points points' :
  Permutation points points' -> NoDup (map fst points) ->
  sort points = sort points'.
Proof.
  intros Hp Hnd. apply sorted_perm_eq; try apply sort_sorted.
  - eapply Permutation_trans; [apply Permutation_sym, sort_perm|].
    eapply Permutation_trans; [exact Hp|apply sort_perm].
  - eapply Permutation_NoDup; [|exact Hnd].
    apply Permutation_map, sort_perm.
Qed.

(** X3.  For a curve with pairwise distinct years the outcome of
    [interpolatePoints] does not depend on the order in which the points are
    given. *)
Theorem interpolatePoints_order_independent points points' (len : Z) :
  Permutation points points' -> NoDup (map fst points) ->
  interpolatePoints points len = interpolatePoints points' len.
Proof.
  intros Hp Hnd.
  rewrite <- (interpolatePoints_of_sorted points),
          <- (interpolatePoints_of_sorted points').
  now rewrite (sort_perm_eq points points').
Qed.

Lemma filter_insert (year : Z) p points :
  filter (year_is year) (insert p points) = filter (year_is year) (p :: points).
Proof.
  induction points as [|q l IH]; [reflexivity|].
  cbn [insert]. destruct (fst p - fst q <=? 0) eqn:E; [reflexivity|].
  apply Z.leb_gt in E. cbn [filter] in *. rewrite IH.
  unfold year_is.
  destruct (fst p =? year) eqn:Ep, (fst q =? year) eqn:Eq; try reflexivity.
  apply Z.eqb_eq in Ep, Eq. lia.
Qed.

(** The sort is stable. *)
Lemma sort_filter_year (year : Z) points :
  filter (year_is year) (sort points) = filter (year_is year) points.
Proof.
  induction points as [|p l IH]; [reflexivity|].
  cbn [sort fold_right]. change (fold_right insert [] l) with (sort l).
  rewrite filter_insert. cbn [filter]. now rewrite IH.
Qed.

Lemma interpolatePoints_result_length points (len : Z) res :
  snd (interpolatePoints points len) = Normal res -> length res = Z.to_nat len.
Proof.
  intros Hres.
  destruct (Nat.lt_ge_cases (length points) 2) as [Hshort|Hlong].
  - destruct (Z.lt_ge_cases len 0) as [Hneg|Hpos];
      [|destruct (Z.lt_ge_cases len 4294967296) as [Hsmall|Hbig]].
    + rewrite interpolatePoints_throws in Hres by auto. discriminate.
    + destruct (interpolatePoints_normal points len) as (res' & Hres' & Hlen);
        [left; lia|]. congruence.
    + rewrite interpolatePoints_throws in Hres by auto. discriminate.
  - destruct (interpolatePoints_normal points len) as (res' & Hres' & Hlen);
      [now right|]. congruence.
Qed.

(** X1.  For a length below 2^32, [interpolatePoints] raises exactly when
    the length is negative and the curve has fewer than two points; for a
    length of 2^32 or more it raises when the curve has fewer than two
    points.  Whenever it returns, the result has one value per year, none
    for a length that is not positive. *)
Theorem interpolatePoints_raises_iff points (len : Z) :
  (len < 4294967296 ->
   (snd (interpolatePoints points len) = Throw RangeError
    <-> len < 0 /\ (length points < 2)%nat))
  /\ (4294967296 <= len -> (length points < 2)%nat ->
      snd (interpolatePoints points len) = Throw RangeError)
  /\ (forall res, snd (interpolatePoints points len) = Normal res ->
                  length res = Z.to_nat len).
Proof.
  split; [|split; [|apply interpolatePoints_result_length]].
  - intros Hsmall. split.
    + intros Hthrow.
      destruct (Z.lt_ge_cases len 0) as [Hneg|Hpos];
        [destruct (Nat.lt_ge_cases (length points) 2) as [Hshort|Hlong]|].
      * now split.
      * destruct (interpolatePoints_normal points len) as (res & Hres & _);
          [now right|]. congruence.
      * destruct (interpolatePoints_normal points len) as (res & Hres & _);
          [left; lia|]. congruence.
    + intros [Hneg Hshort]. apply interpolatePoints_throws; auto.
  - intros Hbig Hshort. apply interpolatePoints_throws; auto.
Qed.

(** X12.  The points of any one year stand in the caller's array after the
    call in the order in which they were given. *)
Theorem interpolatePoints_keeps_order_within_a_year (year : Z) points (len : Z) :
  filter (year_is year) (fst (interpolatePoints points len))
  = filter (year_is year) points.
Proof.
  rewrite interpolatePoints_leaves_sorted. apply sort_filter_year.
Qed.

Lemma find_bracket_none_same_year points (year Y : Z) :
  (forall p, In p points -> fst p = Y) -> find_bracket points year = None.
Proof.
  induction points as [|p [|q l] IH]; intros Hall; try reflexivity.
  rewrite find_bracket_cons.
  assert (fst p = Y) by (apply Hall; simpl; auto).
  assert (fst q = Y) by (apply Hall; simpl; auto).
  replace ((fst p <=? year) && (fst q >? year)) with false.
  - apply IH. intros x Hx. apply Hall. now right.
  - symmetry. apply andb_false_iff. rewrite Z.gtb_ltb.
    destruct (Z.le_gt_cases (fst p) year);
      [right; apply Z.ltb_ge; lia|left; apply Z.leb_gt; lia].
Qed.

Lemma same_year_sorted points (Y : Z) :
  (forall p, In p points -> fst p = Y) -> sorted points.
Proof.
  induction points as [|p l IH]; intros Hall; [constructor|].
  constructor.
  - apply IH. intros x Hx. apply Hall. now right.
  - apply Forall_forall. intros x Hx. unfold by_year.
    rewrite (Hall p), (Hall x); [lia|now right|now left].
Qed.

(** X6.  When all the points of a curve of two or more points share one
    year, every value is the cost of the first point given, and the array is
    left as it was. *)
Theorem interpolatePoints_one_year p q points (len Y : Z) :
  (forall x, In x (p :: q :: points) -> fst x = Y) ->
  interpolatePoints (p :: q :: points) len
  = (p :: q :: points, Normal (repeat (snd p) (Z.to_nat len))).
Proof.
  intros Hall. rewrite interpolatePoints_many.
  rewrite (sort_of_sorted _ (same_year_sorted _ Y Hall)).
  f_equal. f_equal.
  replace (Z.to_nat len) with (length (upto len)) by apply upto_length.
  rewrite <- map_const. apply map_ext. intros y.
  unfold interpolate_year, surrounding.
  rewrite (find_bracket_none_same_year _ y Y Hall). cbn [hd fst snd].
  unfold segment.
  assert (Hl : In (last (p :: q :: points) p) (p :: q :: points)).
  { destruct (exists_last (l := p :: q :: points)) as (l' & a & E);
      [discriminate|].
    rewrite E, last_last. apply in_or_app. right. now left. }
  rewrite (Hall p), (Hall _ Hl) by now left.
  now rewrite Z.eqb_refl.
Qed.

End MoreInterpolator.


(** ** More on the loan and on the projection *)

Lemma calculateLoanPayments_zero_years (p rate : xnum) :
  calculateLoanPayments p rate 0 = NaN.
Proof.
  unfold calculateLoanPayments.
  change (of_Z 12) with (Fin 12). change (of_Z 1) with (Fin 1).
  change (of_Z 0) with (Fin 0). change (0 * 12) with 0.
  cbn [add sub mul div pow xnum_arith].
  change (xpow (xadd (Fin 1) (xdiv rate (Fin 12))) 0) with (Fin 1).
  change (xsub (Fin 1) (Fin 1)) with (Fin 0).
  destruct (xmul (xmul p (xdiv rate (Fin 12))) (Fin 1)) as [x| | |];
    try reflexivity.
  cbn [xdiv Qnum Z.eqb]. destruct (sgn x); reflexivity.
Qed.

Lemma xadd_nan_r (a : xnum) : xadd a NaN = NaN.
Proof. destruct a; reflexivity. Qed.

Lemma fold_xadd_nan (l : list xnum) : fold_left xadd l NaN = NaN.
Proof. induction l as [|x l IH]; [reflexivity|exact IH]. Qed.

Lemma sum_with_nan (l : list xnum) (a : xnum) :
  In NaN l -> fold_left xadd l a = NaN.
Proof.
  revert a. induction l as [|x l IH]; intros a Hin; [destruct Hin|].
  cbn [fold_left]. destruct Hin as [->|Hin].
  - rewrite xadd_nan_r. apply fold_xadd_nan.
  - now apply IH.
Qed.

(** X9.  With [loanYears = 0] the yearly loan payment is NaN whatever the
    principal and the rate, and no entry of the breakdown contains it: every
    entry is insurance + permit + maintenance of its year. *)
Theorem zero_loan_term_never_charged (v : script) (settings : Settings xnum) :
  r_loanYears (defaults settings) = 0 ->
  yearlyLoanPayment (defaults settings) = NaN
  /\ forall ins maint b i,
      snd (interpolatePoints (r_insurancePoints (defaults settings))
             (r_expectedLife (defaults settings))) = Normal ins ->
      snd (interpolatePoints (r_maintenancePoints (defaults settings))
             (r_expectedLife (defaults settings))) = Normal maint ->
      calculateCostOfOwnership v settings = Normal b ->
      0 <= i < r_expectedLife (defaults settings) ->
      at_index (yearlyBreakdown b) i
      = (at_index ins i + r_yearlyPermitCost (defaults settings)
         + at_index maint i)%js.
Proof.
  intros Hzero. split.
  - unfold yearlyLoanPayment. rewrite Hzero, calculateLoanPayments_zero_years.
    reflexivity.
  - intros ins maint b i Hins Hmaint Hb Hi.
    rewrite (calculateCostOfOwnership_run v settings ins maint Hins Hmaint) in Hb.
    assert (Hy : yearlyBreakdown b
                 = map (yearCost (defaults settings) ins maint)
                     (upto (r_expectedLife (defaults settings))))
      by (injection Hb as <-; reflexivity).
    rewrite Hy, at_index_map_upto by lia. unfold yearCost. rewrite Hzero.
    replace (i <? 0) with false by (symmetry; apply Z.ltb_ge; lia).
    reflexivity.
Qed.

(** X10.  With a zero rate, rational cost and down payment, a loan term of
    at least one year and a lifetime of at least one year, every year of the
    loan is NaN in the breakdown and the total is NaN, in both scripts; the
    run returns whenever the lifetime is less than 2^32. *)
Theorem zero_rate_spoils_the_total
  (v : script) (settings : Settings xnum) (c d r : Q) :
  r_cost (defaults settings) = Fin c ->
  r_downPayment (defaults settings) = Fin d ->
  r_loanRate (defaults settings) = Fin r -> (r == 0)%Q ->
  1 <= r_loanYears (defaults settings) ->
  1 <= r_expectedLife (defaults settings) ->
  (r_expectedLife (defaults settings) < 4294967296 ->
   exists b, calculateCostOfOwnership v settings = Normal b)
  /\ forall b,
      calculateCostOfOwnership v settings = Normal b ->
      total b = NaN
      /\ forall i, 0 <= i < r_expectedLife (defaults settings) ->
                   i < r_loanYears (defaults settings) ->
                   at_index (yearlyBreakdown b) i = NaN.
Proof.
  intros Hc Hd Hr Hr0 Hly Hel.
  assert (Hpay : yearlyLoanPayment (defaults settings) = NaN).
  { unfold yearlyLoanPayment, principal. rewrite Hc, Hd, Hr.
    cbn [sub xnum_arith xsub].
    rewrite calculateLoanPayments_zero_rate by exact Hr0. reflexivity. }
  split.
  { intros Hbound.
    destruct (calculateCostOfOwnership_normal v settings)
      as (ins & maint & b & _ & _ & _ & _ & Hb & _); [left; lia|].
    now exists b. }
  intros b Hb.
  destruct (calculateCostOfOwnership_returned v settings b Hb)
    as (ins & maint & Hins & _ & Hmaint & _ & Hy & Ht).
  assert (Hnan : forall i, 0 <= i < r_expectedLife (defaults settings) ->
                           i < r_loanYears (defaults settings) ->
                           at_index (yearlyBreakdown b) i = NaN).
  { intros i Hi Hloan. rewrite Hy, at_index_map_upto by lia. unfold yearCost.
    replace (i <? r_loanYears (defaults settings)) with true
      by (symmetry; apply Z.ltb_lt; lia).
    rewrite Hpay. apply xadd_nan_r. }
  split; [|exact Hnan].
  assert (Hin : In NaN (yearlyBreakdown b)).
  { rewrite <- (Hnan 0) by lia. unfold at_index. apply nth_In.
    rewrite Hy, length_map, upto_length. lia. }
  rewrite Ht. unfold sum. rewrite (sum_with_nan _ _ Hin).
  destruct v; [reflexivity|]. cbn [add xnum_arith]. rewrite Hd. reflexivity.
Qed.

Section MoreProjection.

Context {number : Type} `{Arith number}.

Implicit Types (settings : Settings number) (v : script).

(** X11.  For an [expectedLife] below 2^32, [calculateCostOfOwnership]
    raises exactly when [expectedLife] is negative and one of the two curves
    has fewer than two points; for an [expectedLife] of 2^32 or more it
    raises when one of the curves has fewer than two points.  When it
    returns, the breakdown has [expectedLife] entries, none when
    [expectedLife] is not positive. *)
Theorem calculateCostOfOwnership_raises_iff v settings :
  (r_expectedLife (defaults settings) < 4294967296 ->
   (calculateCostOfOwnership v settings = Throw RangeError
    <-> r_expectedLife (defaults settings) < 0
        /\ ((length (r_insurancePoints (defaults settings)) < 2)%nat
            \/ (length (r_maintenancePoints (defaults settings)) < 2)%nat)))
  /\ (4294967296 <= r_expectedLife (defaults settings) ->
      (length (r_insurancePoints (defaults settings)) < 2)%nat
      \/ (length (r_maintenancePoints (defaults settings)) < 2)%nat ->
      calculateCostOfOwnership v settings = Throw RangeError)
  /\ (forall b, calculateCostOfOwnership v settings = Normal b ->
                length (yearlyBreakdown b)
                = Z.to_nat (r_expectedLife (defaults settings))).
Proof.
  split; [|split].
  - intros Hsmall. split.
    + intros Hthrow.
      assert (Hcases :
        (r_expectedLife (defaults settings) < 0
         /\ ((length (r_insurancePoints (defaults settings)) < 2)%nat
             \/ (length (r_maintenancePoints (defaults settings)) < 2)%nat))
        \/ (0 <= r_expectedLife (defaults settings) < 4294967296
            \/ ((2 <= length (r_insurancePoints (defaults settings)))%nat
                /\ (2 <= length (r_maintenancePoints (defaults settings)))%nat)))
        by lia.
      destruct Hcases as [Hneg|Hok]; [exact Hneg|].
      destruct (calculateCostOfOwnership_normal v settings Hok)
        as (ins & maint & b & _ & _ & _ & _ & Hb & _).
      congruence.
    + intros [Hneg Hshort]. apply calculateCostOfOwnership_throws; auto.
  - intros Hbig Hshort. apply calculateCostOfOwnership_throws; auto.
  - intros b Hb.
    destruct (calculateCostOfOwnership_returned v settings b Hb)
      as (ins & maint & _ & _ & _ & _ & Hy & _).
    now rewrite Hy, length_map, upto_length.
Qed.


End MoreProjection.


Lemma sgn_zero_plus (d : Q) : sgn (Qred (0 + d)) = sgn d.
Proof.
  rewrite sgn_Qred. unfold sgn. simpl. f_equal. lia.
Qed.

(** X14.  When [expectedLife] is not positive the breakdown is empty and
    the average yearly cost of the report is a division by zero: NaN in
    [car_cost_ts], where the total is 0; in [part_001], where the total is
    the down payment [d], it is +Infinity, -Infinity or NaN as [d] is
    positive, negative or 0. *)
Theorem average_of_an_empty_breakdown (settings : Settings xnum) :
  r_expectedLife (defaults settings) <= 0 ->
  (forall b, calculateCostOfOwnership car_cost_ts settings = Normal b ->
             yearlyBreakdown b = [] /\ total b = Fin 0 /\ avgYear b = NaN)
  /\ (forall b d, calculateCostOfOwnership part_001 settings = Normal b ->
                  r_downPayment (defaults settings) = Fin d ->
                  yearlyBreakdown b = [] /\ avgYear b = inf_of_sign (sgn d)).
Proof.
  intros Hel.
  assert (Hupto : upto (r_expectedLife (defaults settings)) = []).
  { unfold upto. replace (Z.to_nat (r_expectedLife (defaults settings))) with 0%nat
      by lia. reflexivity. }
  split.
  - intros b Hb. unfold calculateCostOfOwnership in Hb. rewrite Hupto in Hb.
    destruct (snd (interpolatePoints (r_insurancePoints (defaults settings)) _));
      [|discriminate].
    destruct (snd (interpolatePoints (r_maintenancePoints (defaults settings)) _));
      [|discriminate].
    cbn [bind map] in Hb. injection Hb as <-. repeat split.
  - intros b d Hb Hd. unfold calculateCostOfOwnership in Hb. rewrite Hupto, Hd in Hb.
    destruct (snd (interpolatePoints (r_insurancePoints (defaults settings)) _));
      [|discriminate].
    destruct (snd (interpolatePoints (r_maintenancePoints (defaults settings)) _));
      [|discriminate].
    cbn [bind map] in Hb. injection Hb as <-. split; [reflexivity|].
    unfold avgYear. cbn [total yearlyBreakdown length Z.of_nat].
    change (sum []) with (Fin 0). change (of_Z 0) with (Fin 0).
    cbn [add div xnum_arith xadd xdiv Qnum Z.eqb].
    f_equal. exact (sgn_zero_plus d).
Qed.

(** ** The further theorems at concrete inputs *)

Lemma interpolatePoints_order_independent_witness :
  Permutation unsorted_curve [(0, Fin 2); (5, Fin 1)]
  /\ NoDup (map fst unsorted_curve)
  /\ interpolatePoints unsorted_curve 6
     = interpolatePoints [(0, Fin 2); (5, Fin 1)] 6.
Proof.
  assert (Hp : Permutation unsorted_curve [(0, Fin 2); (5, Fin 1)])
    by apply perm_swap.
  assert (Hnd : NoDup (map fst unsorted_curve)).
  { repeat constructor; simpl; intuition discriminate. }
  split; [exact Hp|]. split; [exact Hnd|].
  exact (interpolatePoints_order_independent unsorted_curve _ 6 Hp Hnd).
Defined.

Lemma interpolatePoints_one_year_witness :
  (forall x, In x same_year_curve -> fst x = 3)
  /\ interpolatePoints same_year_curve 2 = (same_year_curve, Normal [Fin 7; Fin 7]).
Proof.
  assert (Hall : forall x, In x same_year_curve -> fst x = 3).
  { intros x [<-|[<-|[]]]; reflexivity. }
  split; [exact Hall|].
  exact (interpolatePoints_one_year (3, Fin 7) (3, Fin 9) [] 2 3 Hall).
Defined.

Lemma zero_loan_term_never_charged_witness :
  r_loanYears (defaults no_loan_term) = 0
  /\ yearlyLoanPayment (defaults no_loan_term) = NaN
  /\ calculateCostOfOwnership part_001 no_loan_term
     = Normal (mkBreakdown [Fin 17643; Fin 10343] (Fin 27986)).
Proof.
  split; [reflexivity|].
  split; [|reflexivity].
  exact (proj1 (zero_loan_term_never_charged part_001 no_loan_term eq_refl)).
Defined.

Lemma zero_rate_spoils_the_total_witness :
  r_loanRate (defaults interest_free) = Fin 0
  /\ 1 <= r_loanYears (defaults interest_free)
  /\ 1 <= r_expectedLife (defaults interest_free)
  /\ exists b,
       calculateCostOfOwnership part_001 interest_free = Normal b
       /\ total b = NaN
       /\ at_index (yearlyBreakdown b) 3 = NaN.
Proof.
  split; [reflexivity|]. split; [simpl; lia|]. split; [simpl; lia|].
  destruct (zero_rate_spoils_the_total part_001 interest_free 12000 0 0)
    as (Hret & Hall);
    try reflexivity; try (simpl; lia).
  destruct Hret as (b & Hb); [simpl; lia|].
  destruct (Hall b Hb) as (Ht & Hnan).
  exists b. split; [exact Hb|]. split; [exact Ht|].
  apply Hnan; simpl; lia.
Defined.

Lemma average_of_an_empty_breakdown_witness :
  r_expectedLife (defaults zero_life) <= 0
  /\ (exists b, calculateCostOfOwnership car_cost_ts zero_life = Normal b
                /\ avgYear b = NaN)
  /\ (exists b, calculateCostOfOwnership part_001 zero_life = Normal b
                /\ avgYear b = PInf).
Proof.
  assert (Hel : r_expectedLife (defaults zero_life) <= 0) by (simpl; lia).
  destruct (average_of_an_empty_breakdown zero_life Hel) as [Hts Hp1].
  split; [exact Hel|]. split.
  - eexists. split; [reflexivity|]. apply Hts. reflexivity.
  - eexists. split; [reflexivity|].
    exact (proj2 (Hp1 _ 5000%Q eq_refl eq_refl)).
Defined.